(** * ClassicGAN: the WaveNet stack of [network.py] and the GAN blocks of
    [v1 & v2/Model.py], embedded shallowly.

    Tensors of [network.py] are nested lists (batch, channel, time) over an
    abstract scalar type: the sample type of the framework is a floating-point
    number, of which the development uses nothing but the operations
    themselves (no algebraic law is assumed).  A failing framework call
    (channel mismatch, kernel longer than the padded input, operands of
    different shapes) is [None]. *)

From Stdlib Require Import String Reals Lra.
From Stdlib Require Import List ZArith Lia Bool Arith.
Import ListNotations.

(** The operations on samples that [network.py] uses. *)
Class Scalar (K : Type) := {
  kzero : K;
  kadd : K -> K -> K;
  kmul : K -> K -> K;
  ktanh : K -> K;
  ksigmoid : K -> K;
  krelu : K -> K
}.

(** Integer samples, for running the definitions on concrete tensors; the
    three activations are stand-ins (shapes and data flow do not depend on
    them). *)
#[export] Instance Scalar_Z : Scalar Z := {|
  kzero := 0%Z;
  kadd := Z.add;
  kmul := Z.mul;
  ktanh := fun a => a;
  ksigmoid := fun a => a;
  krelu := Z.max 0
|}.

(** The operations on samples that [spectral_norm] in [Model.py] uses:
    the sample 0 ([tf.zeros]), addition, the sum of a list of samples
    ([tf.reduce_sum], and the sums of products inside [tf.matmul]),
    multiplication, division, the two powers the code takes ([x ** 2] and
    [x ** 0.5]) and the constant [1e-12].  The samples of the framework are
    float32 numbers; the development fixes nothing about these operations:
    the order in which a sum is taken, a division by zero, an overflow, a
    not-a-number are whatever the operations return. *)
Class TFScalar (K : Type) := {
  fzero : K;
  fadd : K -> K -> K;
  fsum : list K -> K;
  fmul : K -> K -> K;
  fdiv : K -> K -> K;
  fpow2 : K -> K;
  fpow_half : K -> K;
  feps : K
}.

(** The comparison [a <= b] of samples, with the three facts about it that
    the normalisation relies on: it is transitive, adding [1e-12] to a
    sample that is at least 0 gives at least [1e-12], and [1e-12] is above
    0.  They hold of IEEE arithmetic (rounding is monotone, [1e-12] rounds
    to a positive float32, and a comparison with a not-a-number is false)
    and of the real numbers. *)
Class TFOrder (K : Type) `{TFScalar K} := {
  fle : K -> K -> Prop;
  fle_trans : forall a b c, fle a b -> fle b c -> fle a c;
  fle_add_eps : forall a, fle fzero a -> fle feps (fadd a feps);
  feps_pos : ~ fle feps fzero
}.

(** Real samples, for running the statements on concrete tensors. *)
#[export] Instance TFScalar_R : TFScalar R := {|
  fzero := 0%R;
  fadd := Rplus;
  fsum := fold_right Rplus 0%R;
  fmul := Rmult;
  fdiv := Rdiv;
  fpow2 := fun a => (a ^ 2)%R;
  fpow_half := sqrt;
  feps := (1 / 1000000000000)%R
|}.

#[export] Instance TFOrder_R : TFOrder R.
Proof.
  refine {| fle := Rle |}; unfold not; cbn; intros; lra.
Defined.

Definition bind {A B : Type} (o : option A) (k : A -> option B) : option B :=
  match o with
  | Some a => k a
  | None => None
  end.

Notation "x <- e ;; k" := (bind e (fun x => k))
  (at level 61, e at next level, right associativity).
Notation "' p <- e ;; k" := (bind e (fun p => k))
  (at level 61, p pattern, e at next level, right associativity).

Fixpoint mapM {A B : Type} (f : A -> option B) (l : list A) : option (list B) :=
  match l with
  | [] => Some []
  | a :: l' => b <- f a ;; bs <- mapM f l' ;; Some (b :: bs)
  end.

(** [zip_exact f l1 l2]: elementwise [f], failing on lists of different
    lengths. *)
Fixpoint zip_exact {A B C : Type} (f : A -> B -> option C) (l1 : list A) (l2 : list B)
  : option (list C) :=
  match l1, l2 with
  | [], [] => Some []
  | a :: l1', b :: l2' => c <- f a b ;; cs <- zip_exact f l1' l2' ;; Some (c :: cs)
  | _, _ => None
  end.

(** Python's [l[:stop]] and [l[start:]] on a sequence, negative bounds
    counting from the end and every bound clamped to the sequence. *)
Definition slice_to {A : Type} (stop : Z) (l : list A) : list A :=
  if (0 <=? stop)%Z then firstn (Z.to_nat stop) l
  else firstn (length l - Z.to_nat (- stop)) l.

Definition slice_from {A : Type} (start : Z) (l : list A) : list A :=
  if (0 <=? start)%Z then skipn (Z.to_nat start) l
  else skipn (length l - Z.to_nat (- start)) l.

Module Network.

Section Defs.
Context {K : Type} `{Scalar K}.

(** A tensor of shape (B, C, T): B batch entries, each of C channels, each a
    row of T samples. *)
Definition tensor3 : Type := list (list (list K)).

Definition has_shape (x : tensor3) (B C T : nat) : Prop :=
  length x = B /\
  Forall (fun m => length m = C /\ Forall (fun r => length r = T) m) x.

Definition has_shapeb (x : tensor3) (B C T : nat) : bool :=
  (length x =? B) &&
  forallb (fun m => (length m =? C) && forallb (fun r => length r =? T) m) x.

(** [x[b, c, t]], when the index is in range. *)
Definition tensor_at (x : tensor3) (b c t : nat) : option K :=
  m <- nth_error x b ;; r <- nth_error m c ;; nth_error r t.

(** [x.size()[2]] (0 for a tensor without entries, whose nested lists carry
    no time axis). *)
Definition size2 (x : tensor3) : nat :=
  match x with
  | (r :: _) :: _ => length r
  | _ => 0
  end.

Definition tensor_map (f : K -> K) (x : tensor3) : tensor3 :=
  map (map (map f)) x.

(** Elementwise binary operation on two tensors of one shape ([None] where
    the shapes differ: the forward passes below never combine tensors of
    different shapes, so broadcasting is not modelled). *)
Definition tensor_map2 (f : K -> K -> K) (x y : tensor3) : option tensor3 :=
  zip_exact (zip_exact (zip_exact (fun a b => Some (f a b)))) x y.

(** Sum of a list of samples, left to right. *)
Definition ksum (l : list K) : K :=
  match l with
  | [] => kzero
  | a :: l' => fold_left kadd l' a
  end.

(** ** torch.nn.Conv1d (stride 1, groups 1) *)
Record Conv1d : Type := {
  in_channels : nat;
  out_channels : nat;
  kernel_size : nat;
  conv_padding : nat;
  conv_dilation : nat;
  weight : tensor3;            (* out_channels x in_channels x kernel_size *)
  bias : option (list K)       (* out_channels, or no bias *)
}.

(** Zero padding of [p] samples on both sides of a row. *)
Definition pad1 (p : nat) (row : list K) : list K :=
  repeat kzero p ++ row ++ repeat kzero p.

(** The products of one kernel with the padded row at output position [t]:
    tap [k] reads the padded row at [t + k * dilation]. *)
Definition taps (c : Conv1d) (ker row : list K) (t : nat) : list K :=
  map (fun k => kmul (nth k ker kzero) (nth (t + k * conv_dilation c) row kzero))
      (seq 0 (kernel_size c)).

(** Output sample [t] of output channel [co] for one batch entry [xpad]
    (already padded): the sum over the input channels of the kernel
    products, plus the bias when there is one.  The framework does not fix
    the order of these additions; here they run over the channels, and
    within a channel over the taps, from the first to the last. *)
Definition conv_sample (c : Conv1d) (xpad : list (list K)) (co t : nat) : K :=
  let s := ksum (map (fun ci => ksum (taps c (nth ci (nth co (weight c) []) [])
                                         (nth ci xpad []) t))
                     (seq 0 (in_channels c))) in
  match bias c with
  | Some b => kadd s (nth co b kzero)
  | None => s
  end.

(** One batch entry through the convolution.  The framework refuses an
    entry whose channel count is not [in_channels] and one whose padded rows
    are shorter than the span of the kernel; an entry without channels has no
    time axis here and is refused too. *)
Definition conv1d_batch (c : Conv1d) (xb : list (list K)) : option (list (list K)) :=
  match xb with
  | [] => None
  | r0 :: _ =>
      if negb (length xb =? in_channels c) then None
      else
        let Tpad := length r0 + 2 * conv_padding c in
        let span := conv_dilation c * (kernel_size c - 1) + 1 in
        if Tpad <? span then None
        else
          let xpad := map (pad1 (conv_padding c)) xb in
          Some (map (fun co => map (conv_sample c xpad co) (seq 0 (Tpad - span + 1)))
                    (seq 0 (out_channels c)))
  end.

Definition Conv1d_forward (c : Conv1d) (input : tensor3) : option tensor3 :=
  mapM (conv1d_batch c) input.

(** ** DilatedCausalConv1d *)
Record DilatedCausalConv1d : Type := {
  padding : Z;
  conv : Conv1d
}.

(** [__init__]: the weights [w] stand for the framework's initialisation. *)
Definition DilatedCausalConv1d_init (in_ch out_ch : nat) (dilation : Z) (w : tensor3)
  : DilatedCausalConv1d :=
  {| padding := dilation;
     conv := {| in_channels := in_ch;
                out_channels := out_ch;
                kernel_size := 2;
                conv_padding := Z.to_nat dilation;
                conv_dilation := Z.to_nat dilation;
                weight := w;
                bias := None |} |}.

Definition DilatedCausalConv1d_forward (m : DilatedCausalConv1d) (input : tensor3)
  : option tensor3 :=
  output <- Conv1d_forward (conv m) input ;;
  Some (map (map (slice_to (- padding m))) output).

(** The rows that [conv1d_batch] computes for a batch entry whose rows
    have [T] samples. *)
Definition conv_rows (c : Conv1d) (xb : list (list K)) (T : nat) : list (list K) :=
  map (fun co =>
         map (conv_sample c (map (pad1 (conv_padding c)) xb) co)
             (seq 0 (T + 2 * conv_padding c
                     - (conv_dilation c * (kernel_size c - 1) + 1) + 1)))
      (seq 0 (out_channels c)).

(** [x[b, c, t]] with the zero sample outside the tensor. *)
Definition get (x : tensor3) (b c t : nat) : K :=
  nth t (nth c (nth b x []) []) kzero.

(** Output sample [(b, co, t)] of the dilated causal convolution with
    weights [w] and dilation [d] on [x], written on the unpadded input: tap 0
    reads [x] at [t - d] (the left padding when [t < d]) and tap 1 reads it
    at [t]. *)
Definition causal_sample (w : tensor3) (in_ch d : nat) (x : tensor3) (b co t : nat) : K :=
  ksum (map (fun ci =>
               kadd (kmul (get w co ci 0)
                          (if t <? d then kzero else get x b ci (t - d)))
                    (kmul (get w co ci 1) (get x b ci t)))
            (seq 0 in_ch)).

(** ** ResidualBlock *)
Record ResidualBlock : Type := {
  dilated_conv : DilatedCausalConv1d;
  tanh_conv : Conv1d;
  sigmoid_conv : Conv1d;
  residual_conv : Conv1d;
  skip_conv : Conv1d
}.

(** Weights and bias of a [torch.nn.Conv1d(cin, cout, 1)]. *)
Record PointwiseParams : Type := {
  pw_weight : tensor3;
  pw_bias : list K
}.

Definition pointwise_conv (cin cout : nat) (p : PointwiseParams) : Conv1d :=
  {| in_channels := cin;
     out_channels := cout;
     kernel_size := 1;
     conv_padding := 0;
     conv_dilation := 1;
     weight := pw_weight p;
     bias := Some (pw_bias p) |}.

(** The initial parameters of one residual block. *)
Record BlockParams : Type := {
  p_dilated : tensor3;
  p_tanh : PointwiseParams;
  p_sigmoid : PointwiseParams;
  p_residual : PointwiseParams;
  p_skip : PointwiseParams
}.

Definition ResidualBlock_init (residual_channels dilation_channels skip_channels : nat)
    (dilation : Z) (p : BlockParams) : ResidualBlock :=
  {| dilated_conv :=
       DilatedCausalConv1d_init residual_channels residual_channels dilation (p_dilated p);
     tanh_conv := pointwise_conv residual_channels dilation_channels (p_tanh p);
     sigmoid_conv := pointwise_conv residual_channels dilation_channels (p_sigmoid p);
     residual_conv := pointwise_conv dilation_channels residual_channels (p_residual p);
     skip_conv := pointwise_conv dilation_channels skip_channels (p_skip p) |}.

(** [forward(input, skip_size)]: the line that would cut the skip path to its
    last [skip_size] samples is commented out in the source, so [skip_size]
    is received and not used. *)
Definition ResidualBlock_forward (blk : ResidualBlock) (input : tensor3) (skip_size : Z)
  : option (tensor3 * tensor3) :=
  output <- DilatedCausalConv1d_forward (dilated_conv blk) input ;;
  gated_tanh <- Conv1d_forward (tanh_conv blk) output ;;
  gated_sigmoid <- Conv1d_forward (sigmoid_conv blk) output ;;
  let gated_tanh := tensor_map ktanh gated_tanh in
  let gated_sigmoid := tensor_map ksigmoid gated_sigmoid in
  gated <- tensor_map2 kmul gated_tanh gated_sigmoid ;;
  output <- Conv1d_forward (residual_conv blk) gated ;;
  output <- tensor_map2 kadd output
              (map (map (slice_from (- Z.of_nat (size2 output)))) input) ;;
  skip <- Conv1d_forward (skip_conv blk) gated ;;
  Some (output, skip).

(** ** ResidualStack *)
Record ResidualStack : Type := {
  layer_size : nat;
  stack_size : nat;
  res_blocks : list ResidualBlock
}.

(** [[2 ** i for i in range(layer_size)] * stack_size]: the two counts are
    naturals (a count below 0 gives the empty list, as 0 does), the
    dilations Python integers. *)
Definition build_dilations (layer_size stack_size : nat) : list Z :=
  concat (repeat (map (fun i => 2 ^ Z.of_nat i)%Z (seq 0 layer_size)) stack_size).

Definition _residual_block (residual_channels dilation_channels skip_channels : nat)
    (dilation : Z) (p : BlockParams) : ResidualBlock :=
  ResidualBlock_init residual_channels dilation_channels skip_channels dilation p.

(** One block per dilation, in order; [init i] stands for the framework's
    initialisation of the parameters of block [i]. *)
Definition stack_res_blocks (layer_size stack_size : nat)
    (residual_channels dilation_channels skip_channels : nat)
    (init : nat -> BlockParams) : list ResidualBlock :=
  let dilations := build_dilations layer_size stack_size in
  map (fun '(i, dilation) =>
         _residual_block residual_channels dilation_channels skip_channels
                         dilation (init i))
      (combine (seq 0 (length dilations)) dilations).

Definition ResidualStack_init (layer_size stack_size : nat)
    (residual_channels dilation_channels skip_channels : nat)
    (init : nat -> BlockParams) : ResidualStack :=
  {| layer_size := layer_size;
     stack_size := stack_size;
     res_blocks := stack_res_blocks layer_size stack_size residual_channels
                                    dilation_channels skip_channels init |}.

(** The accumulator [sum] of [ResidualStack.forward]: the integer 0 before
    the first block, a tensor afterwards. *)
Inductive skip_sum : Type :=
| SumInt0
| SumTensor (t : tensor3).

(** [sum += skip]: on the integer 0 the framework adds the number to every
    sample of [skip]; on a tensor it adds elementwise. *)
Definition sum_iadd (sum : skip_sum) (skip : tensor3) : option skip_sum :=
  match sum with
  | SumInt0 => Some (SumTensor (tensor_map (fun a => kadd a kzero) skip))
  | SumTensor s => s' <- tensor_map2 kadd s skip ;; Some (SumTensor s')
  end.

(** One turn of the loop of [ResidualStack.forward] on the pair
    [(output, sum)]. *)
Definition stack_step (skip_size : Z) (st : option (tensor3 * skip_sum))
    (res_block : ResidualBlock) : option (tensor3 * skip_sum) :=
  '(output, sum) <- st ;;
  '(output', skip) <- ResidualBlock_forward res_block output skip_size ;;
  sum' <- sum_iadd sum skip ;;
  Some (output', sum').

Definition ResidualStack_forward (stk : ResidualStack) (input : tensor3) (skip_size : Z)
  : option skip_sum :=
  '(_, sum) <- fold_left (stack_step skip_size) (res_blocks stk) (Some (input, SumInt0)) ;;
  Some sum.

(** The contract of the stack in the words of its description: the skip
    outputs of the blocks in order, each block reading the residual output of
    the block before it ... *)
Fixpoint skip_chain (blocks : list ResidualBlock) (input : tensor3) (skip_size : Z)
  : option (list tensor3) :=
  match blocks with
  | [] => Some []
  | blk :: rest =>
      '(output, skip) <- ResidualBlock_forward blk input skip_size ;;
      skips <- skip_chain rest output skip_size ;;
      Some (skip :: skips)
  end.

(** ... and sample [(b, c, t)] of their elementwise sum, added up from the
    number 0 in the order of the blocks. *)
Definition sum_at (skips : list tensor3) (b c t : nat) : K :=
  match skips with
  | [] => kzero
  | s0 :: rest =>
      fold_left kadd (map (fun s => get s b c t) rest) (kadd (get s0 b c t) kzero)
  end.

(** [sum += skip] over a list of skip outputs. *)
Definition sum_skips (sum : skip_sum) (skips : list tensor3) : option skip_sum :=
  fold_left (fun acc skip => s <- acc ;; sum_iadd s skip) skips (Some sum).

(** A block as [_residual_block] builds it, with a dilation of at least 1. *)
Definition well_built (rc dc sc : nat) (blk : ResidualBlock) : Prop :=
  exists d p, (1 <= d)%Z /\ blk = _residual_block rc dc sc d p.

(** ** PostProcess *)
Record PostProcess : Type := {
  conv1 : Conv1d;
  conv2 : Conv1d
}.

Definition PostProcess_init (skip_channels end_channels channels : nat)
    (p1 p2 : PointwiseParams) : PostProcess :=
  {| conv1 := pointwise_conv skip_channels end_channels p1;
     conv2 := pointwise_conv end_channels channels p2 |}.

Definition PostProcess_forward (m : PostProcess) (input : tensor3) : option tensor3 :=
  let output := tensor_map krelu input in
  output <- Conv1d_forward (conv1 m) output ;;
  let output := tensor_map krelu output in
  output <- Conv1d_forward (conv2 m) output ;;
  Some (tensor_map ksigmoid output).

(** ** Wavenet *)

(** The value of a 64-bit signed integer after wrap-around. *)
Definition int64_wrap (z : Z) : Z := ((z + 2 ^ 63) mod 2 ^ 64 - 2 ^ 63)%Z.

Definition fits_int64 (z : Z) : bool := ((- 2 ^ 63 <=? z) && (z <? 2 ^ 63))%Z.

(** [np.sum] of a list of Python integers that all fit 64 signed bits: the
    list becomes an int64 array (numpy's default integer, taken at its 64
    bits) and is added up in int64, wrapping around silently.  A list with a
    larger entry is no longer an int64 array (the array is of another element
    type) and is left out of the model: [None]. *)
Definition np_sum (l : list Z) : option Z :=
  if forallb fits_int64 l
  then Some (fold_left (fun acc v => int64_wrap (acc + v)) l 0%Z)
  else None.

(** [calc_receptive_field(layer_size, stack_size)] *)
Definition calc_receptive_field (layer_size stack_size : nat) : option Z :=
  let layers :=
    concat (repeat (map (fun i => 2 ^ Z.of_nat i)%Z (seq 0 layer_size)) stack_size) in
  np_sum layers.

Record Wavenet : Type := {
  receptive_field : Z;
  causal : DilatedCausalConv1d;
  res_stacks : ResidualStack;
  post : PostProcess
}.

Record WavenetParams : Type := {
  p_causal : tensor3;
  p_blocks : nat -> BlockParams;
  p_post1 : PointwiseParams;
  p_post2 : PointwiseParams
}.

Definition Wavenet_init (layer_size stack_size : nat)
    (channels residual_channels dilation_channels skip_channels end_channels : nat)
    (p : WavenetParams) : option Wavenet :=
  rf <- calc_receptive_field layer_size stack_size ;;
  Some {| receptive_field := rf;
          causal := DilatedCausalConv1d_init channels residual_channels 1 (p_causal p);
          res_stacks := ResidualStack_init layer_size stack_size residual_channels
                                           dilation_channels skip_channels (p_blocks p);
          post := PostProcess_init skip_channels end_channels channels
                                   (p_post1 p) (p_post2 p) |}.

Definition calc_output_size (net : Wavenet) (input : tensor3) : Z :=
  (Z.of_nat (size2 input) - receptive_field net)%Z.

(** [forward(input)]: the post-processing of the integer 0 (a stack without
    blocks) is a type error of the framework. *)
Definition Wavenet_forward (net : Wavenet) (input : tensor3) : option tensor3 :=
  let output_size := calc_output_size net input in
  output <- DilatedCausalConv1d_forward (causal net) input ;;
  output <- ResidualStack_forward (res_stacks net) output output_size ;;
  match output with
  | SumInt0 => None
  | SumTensor output => PostProcess_forward (post net) output
  end.

(** ** Which input samples an output sample reads *)

(** Two tensors hold the same samples at every timestep in [P]. *)
Definition agree_on (P : nat -> Prop) (x x' : tensor3) : Prop :=
  forall b c s, P s -> tensor_at x b c s = tensor_at x' b c s.

(** The timesteps from [lo] to [hi]; [lo] may lie before the first sample. *)
Definition window (lo : Z) (hi : nat) (s : nat) : Prop :=
  (lo <= Z.of_nat s)%Z /\ s <= hi.

(** The dilation a block was built with, and the dilations of a list of
    blocks added up. *)
Definition dilation_of (blk : ResidualBlock) : Z := padding (dilated_conv blk).

Definition total_dilation (blocks : list ResidualBlock) : Z :=
  fold_right Z.add 0%Z (map dilation_of blocks).

(** Output sample [(b, co, t)] of a [Conv1d(cin, cout, 1)] on [x]. *)
Definition pointwise_sample (p : PointwiseParams) (cin : nat) (x : tensor3)
    (b co t : nat) : K :=
  kadd (ksum (map (fun ci => kmul (get (pw_weight p) co ci 0) (get x b ci t))
                  (seq 0 cin)))
       (nth co (pw_bias p) kzero).

End Defs.

Arguments tensor3 : clear implicits.

End Network.

(** * [v1 & v2/Model.py]

    Two readings of the TensorFlow graph code.  For [spectral_norm] the
    tensors hold their samples, of an abstract type with the framework's
    operations on it.  For the generator and discriminator blocks the
    functions are read on static shapes, every dimension a known number:
    what each call returns is the shape of the tensor it builds, [None]
    where the graph construction fails. *)
Module Model.

Definition ITERS : nat := 1.
Definition NO_OPS : string := "no_ops".

(** [tf.while_loop(cond, body, loop_vars)], run for at most [fuel] turns. *)
Fixpoint while_loop {St : Type} (fuel : nat) (cond : St -> bool) (body : St -> St)
    (loop_vars : St) : option St :=
  match fuel with
  | 0 => None
  | S fuel' =>
      if cond loop_vars then while_loop fuel' cond body (body loop_vars)
      else Some loop_vars
  end.

Section SpectralNorm.
Context {K : Type} `{TFScalar K}.

(** A tensor: its static shape and its samples in row-major order. *)
Record tensor : Type := {
  t_shape : list nat;
  t_data : list K
}.

Definition matrix : Type := list (list K).

(** [inputs / (tf.reduce_sum(inputs ** 2) ** 0.5 + 1e-12)] *)
Definition _l2_normalize (inputs : matrix) : matrix :=
  let norm := fpow_half (fsum (map fpow2 (concat inputs))) in
  map (map (fun a => fdiv a (fadd norm feps))) inputs.

(** [tf.transpose] of a matrix of [cols] columns. *)
Definition transpose (cols : nat) (m : matrix) : matrix :=
  map (fun j => map (fun row => nth j row fzero) m) (seq 0 cols).

Definition dot (a b : list K) : K :=
  fsum (map (fun '(x, y) => fmul x y) (combine a b)).

(** [tf.matmul(a, b)], [b] of [cols] columns. *)
Definition matmul (a b : matrix) (cols : nat) : matrix :=
  map (fun row => map (dot row) (transpose cols b)) a.

(** The rows of [tf.reshape(inputs, [-1, cols])]: [count] rows of [cols]
    samples each. *)
Fixpoint rows_of (cols count : nat) (data : list K) : matrix :=
  match count with
  | 0 => []
  | S count' => firstn cols data :: rows_of cols count' (skipn cols data)
  end.

(** The argument [update_collection]: [None], the object [NO_OPS] itself,
    or any other object, used as the key of a collection (the code tells the
    last two apart by identity, [is not NO_OPS], not by their text). *)
Inductive collection_arg : Type :=
| UpdateNone
| UpdateNoOps
| UpdateKey (key : string).

(** What evaluating [spectral_norm] leaves behind: the normalised weights,
    the value of the variable [u] afterwards, and the assignments to [u]
    registered in a collection for a later run. *)
Record spectral_result : Type := {
  w_norm : tensor;
  u_after : list K;
  collected : list (string * list K)
}.

Definition power_iteration (w : matrix) (rows cols : nat) (vars : nat * matrix * matrix)
  : nat * matrix * matrix :=
  let '(i, u_i, v_i) := vars in
  let v_ip1 := _l2_normalize (matmul u_i (transpose cols w) rows) in
  let u_ip1 := _l2_normalize (matmul v_ip1 w cols) in
  (i + 1, u_ip1, v_ip1).

(** [spectral_norm(inputs, update_collection)], [u] the present value of
    the variable ['u'] (of shape [1, input_shape[-1]]).  The loop counter
    starts at 0 and grows by one each turn, so [S ITERS] turns of fuel
    are enough. *)
Definition spectral_norm (inputs : tensor) (u : list K) (update_collection : collection_arg)
  : option spectral_result :=
  let input_shape := t_shape inputs in
  match rev input_shape with
  | [] => None
  | 0 :: _ => None
  | cols :: _ =>
      let rows := List.length (t_data inputs) / cols in
      let w := rows_of cols rows (t_data inputs) in
      match while_loop (S ITERS)
                       (fun '(i, _, _) => i <? ITERS)
                       (power_iteration w rows cols)
                       (0, [u], [repeat fzero rows]) with
      | None => None
      | Some (_, u_final, v_final) =>
          let sigma :=
            nth 0 (nth 0 (matmul (matmul v_final w cols) (transpose cols u_final) 1) [])
                fzero in
          let w := map (map (fun a => fdiv a sigma)) w in
          let w_norm := {| t_shape := input_shape; t_data := concat w |} in
          let u_final := nth 0 u_final [] in
          match update_collection with
          | UpdateNone =>
              Some {| w_norm := w_norm; u_after := u_final; collected := [] |}
          | UpdateNoOps =>
              Some {| w_norm := w_norm; u_after := u; collected := [] |}
          | UpdateKey c =>
              Some {| w_norm := w_norm; u_after := u; collected := [(c, u_final)] |}
          end
      end
  end.

(** The contract of [spectral_norm] in the words of its description: the
    L2 norm, [normalize x = x / (L2-norm x + 1e-12)], one power-iteration
    step [v = normalize (u W^T)], [u' = normalize (v W)], and the number
    [v W u'^T] by which the weights are scaled down. *)
Definition l2_norm (x : list K) : K := fpow_half (fsum (map fpow2 x)).

Definition normalize (x : list K) : list K :=
  map (fun a => fdiv a (fadd (l2_norm x) feps)) x.

Definition row_times (x : list K) (m : matrix) (cols : nat) : list K :=
  map (fun j => dot x (map (fun row => nth j row fzero) m)) (seq 0 cols).

Definition power_step_v (W : matrix) (u : list K) : list K :=
  normalize (map (dot u) W).

Definition power_step_u (W : matrix) (cols : nat) (v : list K) : list K :=
  normalize (row_times v W cols).

Definition sigma_estimate (W : matrix) (cols : nat) (u : list K) : K :=
  let v := power_step_v W u in
  let u' := power_step_u W cols v in
  dot (row_times v W cols) u'.

End SpectralNorm.

Arguments tensor : clear implicits.
Arguments matrix : clear implicits.
Arguments spectral_result : clear implicits.

(** ** Static shapes

    Arguments that do not enter the shape of a result ([update_collection],
    [train], the scope names) are left out of the functions below; batch
    normalisation, activations and [bias_add] keep the shape and do not
    appear. *)

Definition shape : Type := list nat.

(** The output size of a convolution or pooling with padding SAME:
    the input size divided by the stride, rounded up. *)
Definition ceil_div (n stride : nat) : nat := (n + stride - 1) / stride.

(** [tf.transpose(inputs, perm)] *)
Definition tf_transpose (inputs : shape) (perm : list nat) : option shape :=
  if (List.length perm =? List.length inputs) && forallb (fun i => i <? List.length inputs) perm
  then Some (map (fun i => nth i inputs 0) perm)
  else None.

(** [tf.image.resize_nearest_neighbor(images, size)], [images] in NHWC. *)
Definition resize_nearest_neighbor (images : shape) (size : list nat) : option shape :=
  match images, size with
  | [n; _; _; c], [h; w] => Some [n; h; w; c]
  | _, _ => None
  end.

(** [a + b] on two tensors of one shape (broadcasting between different
    shapes is not modelled: the blocks below only add tensors of one
    shape). *)
Definition tf_add (a b : shape) : option shape :=
  if list_eq_dec Nat.eq_dec a b then Some a else None.

(** [tf.tile(inputs, multiples)] *)
Definition tf_tile (inputs : shape) (multiples : list nat) : option shape :=
  if List.length inputs =? List.length multiples
  then Some (map (fun '(d, k) => d * k) (combine inputs multiples))
  else None.

(** [tf.concat([a, b], axis=1)] on two tensors of rank 4. *)
Definition tf_concat1 (a b : shape) : option shape :=
  match a, b with
  | [n; c; h; w], [n'; c'; h'; w'] =>
      if (n =? n') && (h =? h') && (w =? w') then Some [n; c + c'; h; w] else None
  | _, _ => None
  end.

(** [tf.squeeze(inputs)]: every dimension of size 1 is removed. *)
Definition tf_squeeze (inputs : shape) : shape :=
  filter (fun d => negb (d =? 1)) inputs.

(** [conv(inputs, channels, ..., strides_h, strides_w, ..., transpose)] in
    NCHW with padding SAME.  The kernel sizes, the activation chosen by
    [regularization], the bias and the scope [name] do not enter the shape
    of the result. *)
Definition conv (inputs : shape) (channels : nat) (strides_h strides_w : nat)
    (transpose : bool) : option shape :=
  match inputs with
  | [n; _; h; w] =>
      if transpose then Some [n; channels; h * strides_h; w * strides_w]
      else Some [n; channels; ceil_div h strides_h; ceil_div w strides_w]
  | _ => None
  end.

(** [dense(inputs, units, ...)] *)
Definition dense (inputs : shape) (units : nat) : option shape :=
  match inputs with
  | [n; _] => Some [n; units]
  | _ => None
  end.

(** [as_list()[-2]] and [as_list()[-1]]: an index error on a shorter
    list. *)
Definition dim_m2 (s : shape) : option nat :=
  if 2 <=? List.length s then nth_error s (List.length s - 2) else None.

Definition dim_m1 (s : shape) : option nat :=
  if 1 <=? List.length s then nth_error s (List.length s - 1) else None.

(** The last two dimensions, [as_list()[-2:]], each doubled. *)
Definition doubled_size (inputs : shape) : list nat :=
  map (fun i => i * 2) (skipn (List.length inputs - 2) inputs).

Definition upsample (inputs : shape) (channels : nat) : option shape :=
  let size := doubled_size inputs in
  output <- tf_transpose inputs [0; 2; 3; 1] ;;
  output <- resize_nearest_neighbor output size ;;
  skip <- tf_transpose output [0; 3; 1; 2] ;;
  (* batch normalisation and relu keep the shape *)
  output <- conv skip channels 1 1 false ;;
  output <- conv output channels 1 1 false ;;
  skip <- conv skip channels 1 1 false ;;
  tf_add output skip.

Definition label_concat (inputs label : shape) : option shape :=
  dim1 <- dim_m2 inputs ;;
  dim2 <- dim_m1 inputs ;;
  label <- tf_tile label [1; 1; dim1; dim2] ;;
  tf_concat1 inputs label.

Definition genblock (inputs : shape) (channels : nat) (label : shape) : option shape :=
  inputs <- label_concat inputs label ;;
  upsample inputs channels.

Definition generator1 (inputs label : shape) : option shape := genblock inputs 64 label.
Definition generator2 (inputs label : shape) : option shape := genblock inputs 32 label.
Definition generator3 (inputs label : shape) : option shape := genblock inputs 16 label.

(** [tf.layers.average_pooling2d(inputs, pool_size=2, strides=2,
    padding='same', data_format='channels_first')] *)
Definition average_pooling2d (inputs : shape) : option shape :=
  match inputs with
  | [n; c; h; w] => Some [n; c; ceil_div h 2; ceil_div w 2]
  | _ => None
  end.

Definition downblock (inputs : shape) (channels : nat) : option shape :=
  skip <- average_pooling2d inputs ;;
  output <- conv skip channels 1 1 false ;;
  output <- conv output channels 1 1 false ;;
  skip <- conv skip channels 1 1 false ;;
  tf_add output skip.

(** The [while] loop of [downsample] on [(output, i)], for at most [fuel]
    turns. *)
Fixpoint downsample_loop (fuel : nat) (channels : nat) (output : shape) (i : nat)
  : option (shape * nat) :=
  match fuel with
  | 0 => None
  | S fuel' =>
      h <- dim_m2 output ;;
      if 1 <? h then
        output <- downblock output (channels * 2 ^ i) ;;
        downsample_loop fuel' channels output (i + 1)
      else Some (output, i)
  end.

Definition downsample (fuel : nat) (inputs : shape) : option shape :=
  let channels := 16 in
  output <- conv inputs channels 1 1 false ;;
  output <- conv output channels 1 1 false ;;
  skip <- conv inputs channels 1 1 false ;;
  output <- tf_add output skip ;;
  '(output, _) <- downsample_loop fuel channels output 1 ;;
  Some output.

(** The [while] loop of [encoder] on [(output, i)], for at most [fuel]
    turns. *)
Fixpoint encoder_loop (fuel : nat) (output : shape) (i : nat) : option (shape * nat) :=
  match fuel with
  | 0 => None
  | S fuel' =>
      w <- dim_m1 output ;;
      if 1 <? w then
        output <- conv output (2 ^ (i / 2 + 3)) 2 2 false ;;
        encoder_loop fuel' output (i + 1)
      else Some (output, i)
  end.

Definition encoder (fuel : nat) (inputs : shape) : option shape :=
  '(output, _) <- encoder_loop fuel inputs 0 ;;
  let output := tf_squeeze output in
  dense output 64.

(** ** The rest of the generator and the discriminator, on static shapes *)

(** [tf.expand_dims(inputs, axis=-1)] *)
Definition tf_expand_dims_last (inputs : shape) : shape := inputs ++ [1].

(** [tf.layers.flatten(inputs)]: the batch dimension stays, the others are
    multiplied. *)
Definition tf_flatten (inputs : shape) : option shape :=
  match inputs with
  | [] => None
  | n :: rest => Some [n; fold_right Nat.mul 1 rest]
  end.

(** [tf.concat([a, b], axis=1)] on two tensors of rank 2. *)
Definition tf_concat1_2d (a b : shape) : option shape :=
  match a, b with
  | [n; c], [n'; c'] => if n =? n' then Some [n; c + c'] else None
  | _, _ => None
  end.

(** [process(inputs, num, ...)]; [CHANNEL_NUM] comes from the module [Data].
    The image summaries read slices of [output] and leave it as it is. *)
Definition process (CHANNEL_NUM : nat) (inputs : shape) : option shape :=
  conv1 <- conv inputs CHANNEL_NUM 1 1 false ;;
  output <- tf_transpose conv1 [0; 2; 3; 1] ;;
  tf_transpose output [0; 3; 1; 2].

Definition shared_gen (noise label : shape) : option shape :=
  let output := tf_expand_dims_last (tf_expand_dims_last noise) in
  output <- tf_concat1 output label ;;
  output <- tf_tile output [1; 1; 1; 4] ;;
  output <- fold_left (fun acc i => output <- acc ;; upsample output (1024 / 2 ^ i))
                      (seq 0 4) (Some output) ;;
  conv output 64 1 1 false.

Definition conditional_output (inputs encode : shape) : option shape :=
  output1 <- tf_flatten inputs ;;
  output2 <- tf_concat1_2d output1 encode ;;
  output1 <- dense output1 1 ;;
  output2 <- dense output2 1 ;;
  (* the division by 2 keeps the shape *)
  tf_add output1 output2.

Definition discriminator1 (fuel : nat) (inputs encode : shape) : option shape :=
  down <- downsample fuel inputs ;;
  conditional_output down encode.

Definition discriminator2 (fuel : nat) (inputs encode : shape) : option shape :=
  down <- downsample fuel inputs ;;
  conditional_output down encode.

Definition discriminator3 (fuel : nat) (inputs encode : shape) : option shape :=
  down <- downsample fuel inputs ;;
  conditional_output down encode.

End Model.

(** * [train.py]

    [Trainer.run] as the trace of the calls it makes on its collaborators
    (the network, the summary writer), which are not part of these files.
    Of the data loader two numbers matter: what [__len__()] returns and how
    many batches one pass over it yields. *)
Module Train.

Inductive event : Type :=
| TrainCall (step : nat)        (* self.wavenet.train(sample, step) *)
| AddScalar (step : nat)        (* self.writer.add_scalar('Loss', loss, step) *)
| SampleCall (end_step : nat)   (* self.wavenet.sample(end_step) *)
| AddImage (end_step : nat)     (* self.writer.add_image('Sampled', ..., end_step) *)
| SaveCall (end_step : nat).    (* self.wavenet.save(end_step) *)

Record DataLoader : Type := {
  loader_len : nat;
  loader_batches : nat
}.

(** The body of the loop over the epochs. *)
Definition run_epoch (data_loader : DataLoader) (epoch : nat) : list event :=
  flat_map (fun i =>
              let step := i + epoch * loader_len data_loader in
              [TrainCall step; AddScalar step])
           (seq 0 (loader_batches data_loader))
  ++ (let end_step := (epoch + 1) * loader_len data_loader in
      [SampleCall end_step; AddImage end_step; SaveCall end_step]).

Definition run (num_epochs : nat) (data_loader : DataLoader) : list event :=
  flat_map (run_epoch data_loader) (seq 0 num_epochs).

(** The steps of the training calls of a trace, in order. *)
Definition train_steps (trace : list event) : list nat :=
  flat_map (fun e => match e with TrainCall step => [step] | _ => [] end) trace.

End Train.

(** * Concrete tensors and parameters, over integer samples *)
Module Examples.
Import Network.

Definition ex_pointwise : PointwiseParams :=
  {| pw_weight := [[[1%Z]]]; pw_bias := [0%Z] |}.

Definition ex_block : BlockParams :=
  {| p_dilated := [[[1; 1]]]%Z;
     p_tanh := ex_pointwise;
     p_sigmoid := ex_pointwise;
     p_residual := ex_pointwise;
     p_skip := ex_pointwise |}.

Definition ex_params : WavenetParams :=
  {| p_causal := [[[1; 1]]]%Z;
     p_blocks := fun _ => ex_block;
     p_post1 := ex_pointwise;
     p_post2 := ex_pointwise |}.

(** One batch entry, one channel. *)
Definition ex_wave2 : tensor3 Z := [[[1; 2]]]%Z.
Definition ex_wave5 : tensor3 Z := [[[1; 2; 3; 4; 5]]]%Z.
(** As [ex_wave5] up to time 2, different afterwards. *)
Definition ex_wave5' : tensor3 Z := [[[1; 2; 3; 9; 9]]]%Z.
Definition ex_wave1 : tensor3 Z := [[[7]]]%Z.

(** As [ex_wave5] from time 2 on, different before. *)
Definition ex_wave5_early : tensor3 Z := [[[9; 9; 3; 4; 5]]]%Z.
(** As [ex_wave5] at times 1 and 3, different elsewhere. *)
Definition ex_wave5_taps : tensor3 Z := [[[9; 2; 9; 4; 9]]]%Z.
(** One batch entry of two channels. *)
Definition ex_two_channels : tensor3 Z := [[[1; 2]; [3; 4]]]%Z.

(** Kernel of the dilated convolution: tap 0 weighs 10, tap 1 weighs 1. *)
Definition ex_kernel : tensor3 Z := [[[10; 1]]]%Z.

(** The network of one layer in one stack, and the one without layers,
    both over [ex_params]. *)
Definition ex_net : Wavenet :=
  {| receptive_field := 1%Z;
     causal := DilatedCausalConv1d_init 1 1 1 (p_causal ex_params);
     res_stacks := ResidualStack_init 1 1 1 1 1 (p_blocks ex_params);
     post := PostProcess_init 1 1 1 (p_post1 ex_params) (p_post2 ex_params) |}.

Definition ex_net_empty : Wavenet :=
  {| receptive_field := 0%Z;
     causal := DilatedCausalConv1d_init 1 1 1 (p_causal ex_params);
     res_stacks := ResidualStack_init 0 1 1 1 1 (p_blocks ex_params);
     post := PostProcess_init 1 1 1 (p_post1 ex_params) (p_post2 ex_params) |}.

(** A data loader of three batches. *)
Definition ex_loader : Train.DataLoader :=
  {| Train.loader_len := 3; Train.loader_batches := 3 |}.

(** The 2 x 2 identity as a weight tensor, and a unit vector. *)
Definition ex_identity : list R := [1; 0; 0; 1]%R.
Definition ex_u : list R := [1; 0]%R.

End Examples.

Section Proofs.
Import Network.
Context {K : Type} `{Scalar K}.

Lemma mapM_map {A B : Type} (f : A -> option B) (g : A -> B) (l : list A) :
  Forall (fun a => f a = Some (g a)) l -> mapM f l = Some (map g l).
Proof.
  induction 1 as [|a l Ha _ IH]; simpl.
  - reflexivity.
  - rewrite Ha, IH. reflexivity.
Qed.

Lemma has_shape_iff (x : tensor3 K) (B C T : nat) :
  has_shapeb x B C T = true <-> has_shape x B C T.
Proof.
  unfold has_shapeb, has_shape.
  rewrite andb_true_iff, Nat.eqb_eq, forallb_forall, Forall_forall.
  split; intros [HB Hx]; split; auto; intros m Hm; specialize (Hx m Hm).
  - rewrite andb_true_iff, Nat.eqb_eq, forallb_forall in Hx.
    destruct Hx as [HC Hr]. split; auto.
    rewrite Forall_forall. intros r Hin. apply Nat.eqb_eq. auto.
  - destruct Hx as [HC Hr]. rewrite Forall_forall in Hr.
    rewrite andb_true_iff, Nat.eqb_eq, forallb_forall.
    split; auto. intros r Hin. apply Nat.eqb_eq. auto.
Qed.

Lemma has_shape_map (g : list (list K) -> list (list K)) (x : tensor3 K) (B C C' T T' : nat) :
  has_shape x B C T ->
  (forall m, length m = C -> Forall (fun r => length r = T) m ->
             length (g m) = C' /\ Forall (fun r => length r = T') (g m)) ->
  has_shape (map g x) B C' T'.
Proof.
  intros [HB Hx] Hg. split.
  - rewrite length_map. exact HB.
  - rewrite Forall_map. eapply Forall_impl; [|exact Hx].
    intros m [HC Hr]. apply Hg; assumption.
Qed.

(** *** The convolution on well-shaped input *)

Lemma conv1d_batch_rows (c : Conv1d) (xb : list (list K)) (T : nat) :
  length xb = in_channels c ->
  1 <= in_channels c ->
  Forall (fun r => length r = T) xb ->
  conv_dilation c * (kernel_size c - 1) + 1 <= T + 2 * conv_padding c ->
  conv1d_batch c xb = Some (conv_rows c xb T).
Proof.
  intros Hlen Hpos Hrows Hspan.
  unfold conv1d_batch, conv_rows.
  destruct xb as [|r0 xb']; [simpl in Hlen; lia|].
  inversion Hrows as [|? ? Hr0 _]; subst.
  rewrite Hlen, Nat.eqb_refl. simpl negb. cbv iota.
  destruct (Nat.ltb_spec (length r0 + 2 * conv_padding c)
                         (conv_dilation c * (kernel_size c - 1) + 1)) as [Hlt|_];
    [lia|reflexivity].
Qed.

Lemma Conv1d_forward_rows (c : Conv1d) (x : tensor3 K) (B T : nat) :
  has_shape x B (in_channels c) T ->
  1 <= in_channels c ->
  conv_dilation c * (kernel_size c - 1) + 1 <= T + 2 * conv_padding c ->
  Conv1d_forward c x = Some (map (fun xb => conv_rows c xb T) x).
Proof.
  intros [_ Hx] Hpos Hspan. unfold Conv1d_forward.
  apply mapM_map. eapply Forall_impl; [|exact Hx].
  intros xb [Hlen Hrows]. apply conv1d_batch_rows; assumption.
Qed.

Lemma conv_rows_shape (c : Conv1d) (xb : list (list K)) (T : nat) :
  length (conv_rows c xb T) = out_channels c /\
  Forall (fun r => length r =
                   T + 2 * conv_padding c
                   - (conv_dilation c * (kernel_size c - 1) + 1) + 1)
         (conv_rows c xb T).
Proof.
  unfold conv_rows. split.
  - rewrite length_map, length_seq. reflexivity.
  - rewrite Forall_map, Forall_forall. intros co _.
    rewrite length_map, length_seq. reflexivity.
Qed.

(** *** Reading a tensor *)

Lemma get_batch (x : tensor3 K) (B C T b : nat) :
  has_shape x B C T -> b < B ->
  length (nth b x []) = C /\ Forall (fun r => length r = T) (nth b x []).
Proof.
  intros [HB Hx] Hb.
  rewrite Forall_nth in Hx. apply Hx. lia.
Qed.

Lemma get_row (x : tensor3 K) (B C T b c : nat) :
  has_shape x B C T -> b < B -> c < C ->
  length (nth c (nth b x []) []) = T.
Proof.
  intros Hx Hb Hc.
  destruct (get_batch x B C T b Hx Hb) as [HC Hr].
  rewrite Forall_nth in Hr. apply Hr. lia.
Qed.

Lemma tensor_at_get (x : tensor3 K) (B C T b c t : nat) :
  has_shape x B C T -> b < B -> c < C -> t < T ->
  tensor_at x b c t = Some (get x b c t).
Proof.
  intros Hx Hb Hc Ht.
  destruct (get_batch x B C T b Hx Hb) as [HC _].
  pose proof (get_row x B C T b c Hx Hb Hc) as HT.
  destruct Hx as [HB _].
  unfold tensor_at, get.
  rewrite (nth_error_nth' x [] (n:=b)) by lia. simpl.
  rewrite (nth_error_nth' _ [] (n:=c)) by lia. simpl.
  apply nth_error_nth'. lia.
Qed.

Lemma tensor_at_outside (x : tensor3 K) (B C T b c t : nat) :
  has_shape x B C T -> ~ (b < B /\ c < C /\ t < T) ->
  tensor_at x b c t = None.
Proof.
  intros Hx Hout. unfold tensor_at.
  destruct (nth_error x b) as [m|] eqn:Em; simpl; [|reflexivity].
  assert (Hb : b < B).
  { destruct Hx as [HB _]. rewrite <- HB. apply nth_error_Some. congruence. }
  destruct (get_batch x B C T b Hx Hb) as [HC _].
  rewrite (nth_error_nth _ _ [] Em) in HC.
  destruct (nth_error m c) as [r|] eqn:Er; simpl; [|reflexivity].
  assert (Hc : c < C).
  { rewrite <- HC. apply nth_error_Some. congruence. }
  apply nth_error_None.
  pose proof (get_row x B C T b c Hx Hb Hc) as HT.
  rewrite (nth_error_nth _ _ [] Em), (nth_error_nth _ _ [] Er) in HT. lia.
Qed.

Lemma get_outside (x : tensor3 K) (B C T b c t : nat) :
  has_shape x B C T -> ~ (b < B /\ c < C /\ t < T) ->
  get x b c t = kzero.
Proof.
  intros Hx Hout. unfold get.
  destruct (Nat.lt_ge_cases b B) as [Hb|Hb].
  - destruct (get_batch x B C T b Hx Hb) as [HC _].
    destruct (Nat.lt_ge_cases c C) as [Hc|Hc].
    + pose proof (get_row x B C T b c Hx Hb Hc) as HT.
      apply nth_overflow. lia.
    + rewrite (nth_overflow (nth b x [])) by lia. destruct t; reflexivity.
  - destruct Hx as [HB _].
    rewrite (nth_overflow x) by lia. destruct c, t; reflexivity.
Qed.

(** Two tensors of one shape that agree at an index (in the sense of
    [tensor_at]) hold the same sample there, also read with [get]. *)
Lemma agree_get (x x' : tensor3 K) (B C T b c t : nat) :
  has_shape x B C T -> has_shape x' B C T ->
  tensor_at x b c t = tensor_at x' b c t ->
  get x b c t = get x' b c t.
Proof.
  intros Hx Hx' Heq.
  destruct (Nat.lt_ge_cases b B) as [Hb|Hb];
    [destruct (Nat.lt_ge_cases c C) as [Hc|Hc];
     [destruct (Nat.lt_ge_cases t T) as [Ht|Ht]|]|].
  - rewrite (tensor_at_get x B C T), (tensor_at_get x' B C T) in Heq by assumption.
    congruence.
  - rewrite (get_outside x B C T), (get_outside x' B C T) by (assumption || lia).
    reflexivity.
  - rewrite (get_outside x B C T), (get_outside x' B C T) by (assumption || lia).
    reflexivity.
  - rewrite (get_outside x B C T), (get_outside x' B C T) by (assumption || lia).
    reflexivity.
Qed.

(** *** The dilated causal convolution *)

Lemma nth_pad1 (p : nat) (row : list K) (j : nat) :
  nth j (pad1 p row) kzero = if j <? p then kzero else nth (j - p) row kzero.
Proof.
  unfold pad1. destruct (Nat.ltb_spec j p) as [Hj|Hj].
  - rewrite app_nth1 by (rewrite repeat_length; lia). apply nth_repeat.
  - rewrite app_nth2 by (rewrite repeat_length; lia). rewrite repeat_length.
    destruct (Nat.lt_ge_cases (j - p) (length row)) as [Hin|Hin].
    + apply app_nth1. exact Hin.
    + rewrite app_nth2 by lia. rewrite nth_repeat.
      symmetry. apply nth_overflow. lia.
Qed.

Lemma firstn_seq_add (s n m : nat) : firstn n (seq s (n + m)) = seq s n.
Proof.
  revert s. induction n as [|n IH]; intro s; simpl.
  - reflexivity.
  - rewrite IH. reflexivity.
Qed.

Lemma slice_to_neg {A : Type} (d : Z) (l : list A) :
  (1 <= d)%Z -> slice_to (- d) l = firstn (length l - Z.to_nat d) l.
Proof.
  intro Hd. unfold slice_to.
  destruct (Z.leb_spec 0 (- d)) as [Hle|_]; [lia|].
  rewrite Z.opp_involutive. reflexivity.
Qed.

Lemma DilatedCausalConv1d_forward_rows (in_ch out_ch : nat) (d : Z) (w x : tensor3 K)
    (B T : nat) :
  (1 <= d)%Z -> 1 <= in_ch -> has_shape x B in_ch T ->
  DilatedCausalConv1d_forward (DilatedCausalConv1d_init in_ch out_ch d w) x =
  Some (map (fun xb =>
               map (fun co =>
                      map (conv_sample (conv (DilatedCausalConv1d_init in_ch out_ch d w))
                                       (map (pad1 (Z.to_nat d)) xb) co)
                          (seq 0 T))
                   (seq 0 out_ch))
            x).
Proof.
  intros Hd Hin Hx. unfold DilatedCausalConv1d_forward.
  rewrite (Conv1d_forward_rows _ x B T); [|exact Hx|exact Hin|simpl; lia].
  simpl bind. f_equal. rewrite map_map. apply map_ext. intro xb.
  unfold conv_rows. rewrite map_map. apply map_ext. intro co.
  cbn [padding conv DilatedCausalConv1d_init conv_padding conv_dilation
       kernel_size out_channels].
  rewrite slice_to_neg by exact Hd.
  rewrite length_map, length_seq, firstn_map. f_equal.
  replace (T + 2 * Z.to_nat d - (Z.to_nat d * (2 - 1) + 1) + 1 - Z.to_nat d)
    with T by lia.
  replace (T + 2 * Z.to_nat d - (Z.to_nat d * (2 - 1) + 1) + 1)
    with (T + Z.to_nat d) by lia.
  apply firstn_seq_add.
Qed.

Lemma conv_sample_causal (in_ch out_ch : nat) (d : Z) (w x : tensor3 K) (b co t : nat) :
  length (nth b x []) = in_ch ->
  conv_sample (conv (DilatedCausalConv1d_init in_ch out_ch d w))
              (map (pad1 (Z.to_nat d)) (nth b x [])) co t =
  causal_sample w in_ch (Z.to_nat d) x b co t.
Proof.
  intro Hlen. unfold conv_sample, causal_sample.
  cbn [conv DilatedCausalConv1d_init bias weight in_channels].
  f_equal. apply map_ext_in. intros ci Hci. apply in_seq in Hci.
  unfold taps. cbn [kernel_size conv_dilation seq map ksum fold_left].
  rewrite (nth_indep (map (pad1 (Z.to_nat d)) (nth b x [])) [] (pad1 (Z.to_nat d) []))
    by (rewrite length_map; lia).
  rewrite map_nth, !nth_pad1.
  replace (t + 0 * Z.to_nat d) with t by lia.
  replace (t + 1 * Z.to_nat d - Z.to_nat d) with t by lia.
  destruct (Nat.ltb_spec (t + 1 * Z.to_nat d) (Z.to_nat d)) as [Hlt|_]; [lia|].
  reflexivity.
Qed.

Lemma DilatedCausalConv1d_forward_at (in_ch out_ch : nat) (d : Z) (w x y : tensor3 K)
    (B T b co t : nat) :
  (1 <= d)%Z -> 1 <= in_ch -> has_shape x B in_ch T ->
  DilatedCausalConv1d_forward (DilatedCausalConv1d_init in_ch out_ch d w) x = Some y ->
  b < B -> co < out_ch -> t < T ->
  tensor_at y b co t = Some (causal_sample w in_ch (Z.to_nat d) x b co t).
Proof.
  intros Hd Hin Hx Hy Hb Hco Ht.
  rewrite (DilatedCausalConv1d_forward_rows in_ch out_ch d w x B T Hd Hin Hx) in Hy.
  injection Hy as <-.
  destruct (get_batch x B in_ch T b Hx Hb) as [HC _].
  unfold tensor_at. rewrite nth_error_map.
  rewrite (nth_error_nth' x [] (n:=b)) by (destruct Hx; lia).
  cbn [option_map bind]. rewrite nth_error_map, nth_error_seq.
  destruct (Nat.ltb_spec co out_ch) as [_|Hge]; [|lia].
  cbn [option_map bind Nat.add]. rewrite nth_error_map, nth_error_seq.
  destruct (Nat.ltb_spec t T) as [_|Hge]; [|lia].
  cbn [option_map Nat.add]. f_equal.
  apply conv_sample_causal. exact HC.
Qed.

Lemma DilatedCausalConv1d_forward_has_shape (in_ch out_ch : nat) (d : Z) (w x : tensor3 K)
    (B T : nat) :
  (1 <= d)%Z -> 1 <= in_ch -> has_shape x B in_ch T ->
  exists y,
    DilatedCausalConv1d_forward (DilatedCausalConv1d_init in_ch out_ch d w) x = Some y /\
    has_shape y B out_ch T.
Proof.
  intros Hd Hin Hx. eexists. split.
  - apply (DilatedCausalConv1d_forward_rows in_ch out_ch d w x B T Hd Hin Hx).
  - eapply has_shape_map; [exact Hx|]. intros m _ _. split.
    + rewrite length_map, length_seq. reflexivity.
    + rewrite Forall_map, Forall_forall. intros co _.
      rewrite length_map, length_seq. reflexivity.
Qed.

(** *** Shapes through the elementwise operations *)

Lemma Forall2_both {A B : Type} (P : A -> Prop) (Q : B -> Prop) (l1 : list A) (l2 : list B) :
  length l1 = length l2 -> Forall P l1 -> Forall Q l2 ->
  Forall2 (fun a b => P a /\ Q b) l1 l2.
Proof.
  revert l2. induction l1 as [|a l1 IH]; intros [|b l2] Hlen H1 H2;
    try discriminate; constructor.
  - inversion H1; inversion H2; auto.
  - apply IH; [simpl in Hlen; lia|inversion H1; auto|inversion H2; auto].
Qed.

Lemma zip_exact_Forall2 {A B C : Type} (f : A -> B -> option C) (P : C -> Prop)
    (l1 : list A) (l2 : list B) :
  Forall2 (fun a b => exists c, f a b = Some c /\ P c) l1 l2 ->
  exists l, zip_exact f l1 l2 = Some l /\ length l = length l1 /\ Forall P l.
Proof.
  induction 1 as [|a b l1 l2 (c & Hc & HP) _ (l & Hl & Hlen & HF)]; simpl.
  - exists []. auto.
  - exists (c :: l). rewrite Hc, Hl. simpl. auto.
Qed.

Lemma tensor_map_shape (f : K -> K) (x : tensor3 K) (B C T : nat) :
  has_shape x B C T -> has_shape (tensor_map f x) B C T.
Proof.
  intro Hx. unfold tensor_map. eapply has_shape_map; [exact Hx|].
  intros m HC Hr. split.
  - rewrite length_map. exact HC.
  - rewrite Forall_map. eapply Forall_impl; [|exact Hr].
    intros r HT. rewrite length_map. exact HT.
Qed.

Lemma tensor_map2_shape (f : K -> K -> K) (x y : tensor3 K) (B C T : nat) :
  has_shape x B C T -> has_shape y B C T ->
  exists z, tensor_map2 f x y = Some z /\ has_shape z B C T.
Proof.
  intros [HBx Hx] [HBy Hy]. unfold tensor_map2.
  destruct (zip_exact_Forall2
              (zip_exact (zip_exact (fun a b => Some (f a b))))
              (fun m => length m = C /\ Forall (fun r => length r = T) m) x y)
    as (z & Hz & Hlen & HF).
  - pose proof (Forall2_both _ _ x y ltac:(lia) Hx Hy) as Hxy.
    eapply Forall2_impl; [|exact Hxy].
    intros m m' [[HC Hr] [HC' Hr']]. cbv beta in *.
    destruct (zip_exact_Forall2 (zip_exact (fun a b => Some (f a b)))
                                (fun r => length r = T) m m')
      as (rows & Hrows & Hl & HFr).
    + pose proof (Forall2_both _ _ m m' ltac:(lia) Hr Hr') as Hmm.
      eapply Forall2_impl; [|exact Hmm].
      intros r r' [HT HT']. cbv beta in *.
      destruct (zip_exact_Forall2 (fun a b => Some (f a b)) (fun _ => True) r r')
        as (row & Hrow & Hlr & _).
      * eapply Forall2_impl;
          [|apply (Forall2_both (fun _ => True) (fun _ => True) r r');
            [lia|apply Forall_forall; auto|apply Forall_forall; auto]].
        intros a b _. exists (f a b). auto.
      * exists row. split; [exact Hrow|lia].
    + exists rows. split; [exact Hrows|]. split; [lia|exact HFr].
  - exists z. split; [exact Hz|]. split; [lia|exact HF].
Qed.

Lemma pointwise_forward_shape (cin cout : nat) (p : PointwiseParams) (x : tensor3 K)
    (B T : nat) :
  1 <= cin -> 1 <= T -> has_shape x B cin T ->
  exists y, Conv1d_forward (pointwise_conv cin cout p) x = Some y /\
            has_shape y B cout T.
Proof.
  intros Hc HT Hx. eexists. split.
  - apply (Conv1d_forward_rows _ x B T); [exact Hx|exact Hc|simpl; lia].
  - eapply has_shape_map; [exact Hx|]. intros m _ _.
    destruct (conv_rows_shape (pointwise_conv cin cout p) m T) as [Hl Hr].
    split; [exact Hl|].
    eapply Forall_impl; [|exact Hr]. intros r Hlen. rewrite Hlen. simpl. lia.
Qed.

Lemma size2_shape (x : tensor3 K) (B C T : nat) :
  has_shape x B C T -> 1 <= B -> 1 <= C -> size2 x = T.
Proof.
  intros [HB Hx] HB1 HC1.
  destruct x as [|m x']; [simpl in HB; lia|].
  inversion Hx as [|? ? [HC Hr] _]; subst.
  destruct m as [|r m']; [simpl in HC1; lia|].
  inversion Hr; subst. reflexivity.
Qed.

Lemma slice_from_whole {A : Type} (l : list A) :
  slice_from (- Z.of_nat (length l)) l = l.
Proof.
  unfold slice_from.
  destruct (Z.leb_spec 0 (- Z.of_nat (length l))) as [Hle|Hlt].
  - replace (Z.to_nat (- Z.of_nat (length l))) with 0 by lia. reflexivity.
  - replace (length l - Z.to_nat (- - Z.of_nat (length l))) with 0 by lia.
    reflexivity.
Qed.

(** The slice of the input that the residual path adds back is the whole
    input: the block's output is as long as its input. *)
Lemma residual_slice_whole (output input : tensor3 K) (B C T : nat) :
  has_shape output B C T -> has_shape input B C T -> 1 <= C ->
  map (map (slice_from (- Z.of_nat (size2 output)))) input = input.
Proof.
  intros Ho Hi HC.
  destruct (Nat.eq_dec B 0) as [->|HB].
  - destruct Hi as [Hlen _]. destruct input; [reflexivity|discriminate].
  - rewrite (size2_shape output B C T Ho) by lia.
    destruct Hi as [_ Hi]. induction Hi as [|m x' [_ Hr] _ IH]; simpl.
    + reflexivity.
    + rewrite IH. f_equal.
      induction Hr as [|r m' HT _ IHr]; simpl.
      * reflexivity.
      * rewrite IHr, <- HT, slice_from_whole. reflexivity.
Qed.

(** *** Shapes through a residual block *)

Ltac use_shape Hs :=
  let y := fresh "y" in
  let Ey := fresh "Ey" in
  let Sy := fresh "Sy" in
  destruct Hs as (y & Ey & Sy); rewrite Ey; cbn [bind].

Lemma ResidualBlock_forward_shape (rc dc sc : nat) (d : Z) (p : BlockParams)
    (input : tensor3 K) (skip_size : Z) (B T : nat) :
  (1 <= d)%Z -> 1 <= rc -> 1 <= dc -> 1 <= T ->
  has_shape input B rc T ->
  exists output skip,
    ResidualBlock_forward (ResidualBlock_init rc dc sc d p) input skip_size
    = Some (output, skip) /\
    has_shape output B rc T /\ has_shape skip B sc T.
Proof.
  intros Hd Hrc Hdc HT Hin.
  unfold ResidualBlock_forward, ResidualBlock_init.
  cbn [dilated_conv tanh_conv sigmoid_conv residual_conv skip_conv].
  use_shape (DilatedCausalConv1d_forward_has_shape rc rc d (p_dilated p) input B T
               Hd Hrc Hin).
  use_shape (pointwise_forward_shape rc dc (p_tanh p) y B T Hrc HT Sy).
  use_shape (pointwise_forward_shape rc dc (p_sigmoid p) y B T Hrc HT Sy).
  use_shape (tensor_map2_shape kmul _ _ B dc T
               (tensor_map_shape ktanh _ _ _ _ Sy0)
               (tensor_map_shape ksigmoid _ _ _ _ Sy1)).
  use_shape (pointwise_forward_shape dc rc (p_residual p) y2 B T Hdc HT Sy2).
  rewrite (residual_slice_whole y3 input B rc T Sy3 Hin Hrc).
  use_shape (tensor_map2_shape kadd y3 input B rc T Sy3 Hin).
  use_shape (pointwise_forward_shape dc sc (p_skip p) y2 B T Hdc HT Sy2).
  eauto.
Qed.

(** *** Reading the result of an elementwise operation *)

Lemma zip_exact_nth_error {A B C : Type} (f : A -> B -> option C)
    (l1 : list A) (l2 : list B) (l : list C) (i : nat) (a : A) (b : B) :
  zip_exact f l1 l2 = Some l ->
  nth_error l1 i = Some a -> nth_error l2 i = Some b ->
  exists c, f a b = Some c /\ nth_error l i = Some c.
Proof.
  revert l2 l i. induction l1 as [|a0 l1 IH]; intros [|b0 l2] l i; simpl;
    try discriminate.
  - destruct i; discriminate.
  - destruct (f a0 b0) as [c0|] eqn:Ec; simpl; [|discriminate].
    destruct (zip_exact f l1 l2) as [cs|] eqn:Ecs; simpl; [|discriminate].
    intros [= <-]. destruct i as [|i]; simpl.
    + intros [= ->] [= ->]. eauto.
    + intros Ha Hb. eapply IH; eauto.
Qed.

Lemma tensor_map2_at (f : K -> K -> K) (x y z : tensor3 K) (b c t : nat) (a a' : K) :
  tensor_map2 f x y = Some z ->
  tensor_at x b c t = Some a -> tensor_at y b c t = Some a' ->
  tensor_at z b c t = Some (f a a').
Proof.
  unfold tensor_map2, tensor_at. intros Hz Hx Hy.
  destruct (nth_error x b) as [m|] eqn:Em; simpl in Hx; [|discriminate].
  destruct (nth_error y b) as [m'|] eqn:Em'; simpl in Hy; [|discriminate].
  destruct (zip_exact_nth_error _ _ _ _ _ _ _ Hz Em Em') as (mz & Hmz & ->).
  simpl.
  destruct (nth_error m c) as [r|] eqn:Er; simpl in Hx; [|discriminate].
  destruct (nth_error m' c) as [r'|] eqn:Er'; simpl in Hy; [|discriminate].
  destruct (zip_exact_nth_error _ _ _ _ _ _ _ Hmz Er Er') as (rz & Hrz & ->).
  simpl.
  destruct (zip_exact_nth_error _ _ _ _ _ _ _ Hrz Hx Hy) as (v & Hv & ->).
  congruence.
Qed.

Lemma tensor_map_at (f : K -> K) (x : tensor3 K) (b c t : nat) :
  tensor_at (tensor_map f x) b c t = option_map f (tensor_at x b c t).
Proof.
  unfold tensor_map, tensor_at. rewrite nth_error_map.
  destruct (nth_error x b) as [m|]; simpl; [|reflexivity].
  rewrite nth_error_map.
  destruct (nth_error m c) as [r|]; simpl; [|reflexivity].
  apply nth_error_map.
Qed.

Lemma get_of_tensor_at (x : tensor3 K) (B C T b c t : nat) (a : K) :
  has_shape x B C T -> tensor_at x b c t = Some a -> get x b c t = a.
Proof.
  intros Hx Hat.
  destruct (Nat.lt_ge_cases b B) as [Hb|Hb];
    [destruct (Nat.lt_ge_cases c C) as [Hc|Hc];
     [destruct (Nat.lt_ge_cases t T) as [Ht|Ht]|]|];
    try (rewrite (tensor_at_outside x B C T) in Hat by (assumption || lia);
         discriminate).
  rewrite (tensor_at_get x B C T) in Hat by assumption. congruence.
Qed.

(** *** The loop of the stack *)

Lemma fold_stack_step_None (skip_size : Z) (blocks : list ResidualBlock) :
  fold_left (stack_step skip_size) blocks None = None.
Proof.
  induction blocks as [|blk rest IH]; simpl; auto.
Qed.

Lemma sum_skips_None (skips : list (tensor3 K)) :
  fold_left (fun acc skip => s <- acc ;; sum_iadd s skip) skips None = None.
Proof.
  induction skips as [|sk rest IH]; simpl; auto.
Qed.

(** The loop computes the skips of [skip_chain] and adds them up with
    [sum_skips]; its first component, the residual chain, is dropped. *)
Lemma stack_loop_chain (skip_size : Z) (blocks : list ResidualBlock)
    (output : tensor3 K) (sum : skip_sum) :
  (st <- fold_left (stack_step skip_size) blocks (Some (output, sum)) ;; Some (snd st))
  = (skips <- skip_chain blocks output skip_size ;; sum_skips sum skips).
Proof.
  revert output sum. induction blocks as [|blk rest IH]; intros output sum.
  - reflexivity.
  - cbn [fold_left skip_chain]. unfold stack_step at 2. cbn [bind].
    destruct (ResidualBlock_forward blk output skip_size) as [[output' skip]|];
      cbn [bind]; [|rewrite fold_stack_step_None; reflexivity].
    destruct (sum_iadd sum skip) as [sum'|] eqn:Esum; cbn [bind].
    + rewrite IH.
      destruct (skip_chain rest output' skip_size) as [skips|]; cbn [bind];
        [|reflexivity].
      unfold sum_skips. cbn [fold_left bind]. rewrite Esum. reflexivity.
    + rewrite fold_stack_step_None. cbn [bind].
      destruct (skip_chain rest output' skip_size) as [skips|]; cbn [bind];
        [|reflexivity].
      unfold sum_skips. cbn [fold_left bind]. rewrite Esum.
      rewrite sum_skips_None. reflexivity.
Qed.

Lemma ResidualStack_forward_chain (stk : ResidualStack) (input : tensor3 K) (skip_size : Z) :
  ResidualStack_forward stk input skip_size
  = (skips <- skip_chain (res_blocks stk) input skip_size ;; sum_skips SumInt0 skips).
Proof.
  rewrite <- stack_loop_chain. unfold ResidualStack_forward.
  destruct (fold_left (stack_step skip_size) (res_blocks stk) (Some (input, SumInt0)))
    as [[output sum]|]; reflexivity.
Qed.

Lemma skip_chain_shape (rc dc sc : nat) (blocks : list ResidualBlock)
    (input : tensor3 K) (skip_size : Z) (B T : nat) :
  Forall (well_built rc dc sc) blocks ->
  1 <= rc -> 1 <= dc -> 1 <= T ->
  has_shape input B rc T ->
  exists skips,
    skip_chain blocks input skip_size = Some skips /\
    length skips = length blocks /\
    Forall (fun s => has_shape s B sc T) skips.
Proof.
  intros Hblocks Hrc Hdc HT. revert input.
  induction Hblocks as [|blk rest (d & p & Hd & ->) _ IH]; intros input Hin.
  - exists []. simpl. auto.
  - destruct (ResidualBlock_forward_shape rc dc sc d p input skip_size B T
                Hd Hrc Hdc HT Hin) as (output & skip & E & So & Ss).
    destruct (IH output So) as (skips & Eskips & Hlen & Hshapes).
    exists (skip :: skips). cbn [skip_chain]. unfold _residual_block.
    rewrite E. cbn [bind].
    rewrite Eskips. cbn [bind length]. auto.
Qed.

Lemma sum_skips_tensor (skips : list (tensor3 K)) (s0 : tensor3 K) (B C T : nat) :
  Forall (fun s => has_shape s B C T) skips ->
  has_shape s0 B C T ->
  exists s',
    sum_skips (SumTensor s0) skips = Some (SumTensor s') /\
    has_shape s' B C T /\
    forall b c t, b < B -> c < C -> t < T ->
      tensor_at s' b c t
      = Some (fold_left kadd (map (fun s => get s b c t) skips) (get s0 b c t)).
Proof.
  intro Hskips. revert s0.
  induction Hskips as [|sk rest Hsk _ IH]; intros s0 Hs0.
  - exists s0. split; [reflexivity|]. split; [exact Hs0|].
    intros b c t Hb Hc Ht. apply (tensor_at_get s0 B C T); assumption.
  - destruct (tensor_map2_shape kadd s0 sk B C T Hs0 Hsk) as (z & Ez & Sz).
    destruct (IH z Sz) as (s' & Es' & Ss' & Hat).
    exists s'. split; [|split; [exact Ss'|]].
    + unfold sum_skips in *. cbn [fold_left bind sum_iadd]. rewrite Ez. exact Es'.
    + intros b c t Hb Hc Ht. rewrite (Hat b c t Hb Hc Ht). cbn [map fold_left].
      do 2 f_equal. apply (get_of_tensor_at z B C T); [exact Sz|].
      apply (tensor_map2_at kadd s0 sk z); [exact Ez| |];
        apply (tensor_at_get _ B C T); assumption.
Qed.

Lemma sum_skips_at (skips : list (tensor3 K)) (B C T : nat) :
  skips <> [] ->
  Forall (fun s => has_shape s B C T) skips ->
  exists s',
    sum_skips SumInt0 skips = Some (SumTensor s') /\
    has_shape s' B C T /\
    forall b c t, b < B -> c < C -> t < T ->
      tensor_at s' b c t = Some (sum_at skips b c t).
Proof.
  intros Hne Hskips. destruct skips as [|sk rest]; [congruence|].
  inversion Hskips as [|? ? Hsk Hrest]; subst.
  pose proof (tensor_map_shape (fun a => kadd a kzero) sk B C T Hsk) as Hs0.
  destruct (sum_skips_tensor rest _ B C T Hrest Hs0) as (s' & Es' & Ss' & Hat).
  exists s'. split; [exact Es'|]. split; [exact Ss'|].
  intros b c t Hb Hc Ht. rewrite (Hat b c t Hb Hc Ht). unfold sum_at.
  do 2 f_equal. apply (get_of_tensor_at _ B C T); [exact Hs0|].
  rewrite tensor_map_at, (tensor_at_get sk B C T) by assumption. reflexivity.
Qed.

(** *** The dilations *)

Lemma nth_error_concat_repeat {A : Type} (l : list A) (n i : nat) :
  i < length l * n ->
  nth_error (concat (repeat l n)) i = nth_error l (i mod length l).
Proof.
  revert i. induction n as [|n IH]; intros i Hi; [lia|].
  cbn [repeat concat].
  destruct (Nat.lt_ge_cases i (length l)) as [Hlt|Hge].
  - rewrite nth_error_app1 by exact Hlt. rewrite Nat.mod_small by exact Hlt.
    reflexivity.
  - rewrite nth_error_app2 by exact Hge. rewrite IH by lia.
    replace i with (i - length l + 1 * length l) at 2 by lia.
    rewrite Nat.Div0.mod_add. reflexivity.
Qed.

Lemma length_concat_repeat {A : Type} (l : list A) (n : nat) :
  length (concat (repeat l n)) = length l * n.
Proof.
  induction n as [|n IH]; cbn [repeat concat].
  - simpl. lia.
  - rewrite length_app, IH. lia.
Qed.

Lemma build_dilations_length (L S : nat) : length (build_dilations L S) = L * S.
Proof.
  unfold build_dilations. rewrite length_concat_repeat, length_map, length_seq.
  reflexivity.
Qed.

Lemma build_dilations_nth (L S i : nat) :
  i < L * S ->
  nth_error (build_dilations L S) i = Some (2 ^ Z.of_nat (i mod L))%Z.
Proof.
  intro Hi. unfold build_dilations.
  rewrite nth_error_concat_repeat; rewrite length_map, length_seq; [|exact Hi].
  assert (HL : i mod L < L) by (apply Nat.mod_upper_bound; lia).
  rewrite nth_error_map, nth_error_seq.
  destruct (Nat.ltb_spec (i mod L) L) as [_|Hge]; [reflexivity|lia].
Qed.

Lemma build_dilations_pos (L S : nat) (d : Z) :
  In d (build_dilations L S) -> (1 <= d)%Z.
Proof.
  intro Hd. apply In_nth_error in Hd. destruct Hd as [i Hi].
  assert (Hlt : i < L * S).
  { rewrite <- build_dilations_length. apply nth_error_Some. congruence. }
  rewrite build_dilations_nth in Hi by exact Hlt. injection Hi as <-.
  pose proof (Z.pow_pos_nonneg 2 (Z.of_nat (i mod L))). lia.
Qed.

Lemma stack_res_blocks_nth (L S rc dc sc : nat) (init : nat -> @BlockParams K) (i : nat) :
  i < L * S ->
  nth_error (stack_res_blocks L S rc dc sc init) i
  = Some (_residual_block rc dc sc (2 ^ Z.of_nat (i mod L))%Z (init i)).
Proof.
  intro Hi. unfold stack_res_blocks.
  rewrite nth_error_map.
  pose proof (build_dilations_length L S) as Hlen.
  rewrite (nth_error_nth' _ (0, 0%Z))
    by (rewrite length_combine, length_seq, Hlen; lia).
  rewrite combine_nth by (rewrite length_seq; reflexivity).
  rewrite seq_nth by lia.
  rewrite (nth_error_nth _ _ 0%Z (build_dilations_nth L S i Hi)).
  reflexivity.
Qed.

Lemma stack_res_blocks_length (L S rc dc sc : nat) (init : nat -> @BlockParams K) :
  length (stack_res_blocks L S rc dc sc init) = L * S.
Proof.
  unfold stack_res_blocks.
  rewrite length_map, length_combine, length_seq, build_dilations_length.
  lia.
Qed.

Lemma stack_res_blocks_well_built (L S rc dc sc : nat) (init : nat -> @BlockParams K) :
  Forall (well_built rc dc sc) (stack_res_blocks L S rc dc sc init).
Proof.
  unfold stack_res_blocks. rewrite Forall_map, Forall_forall.
  intros [i d] Hin. apply in_combine_r in Hin.
  exists d, (init i). split; [|reflexivity].
  eapply build_dilations_pos. exact Hin.
Qed.

(** *** The whole network *)

Lemma PostProcess_forward_shape (sc ec ch : nat) (p1 p2 : PointwiseParams)
    (input : tensor3 K) (B T : nat) :
  1 <= sc -> 1 <= ec -> 1 <= T -> has_shape input B sc T ->
  exists y, PostProcess_forward (PostProcess_init sc ec ch p1 p2) input = Some y /\
            has_shape y B ch T.
Proof.
  intros Hsc Hec HT Hin. unfold PostProcess_forward, PostProcess_init.
  cbn [conv1 conv2].
  use_shape (pointwise_forward_shape sc ec p1 _ B T Hsc HT
               (tensor_map_shape krelu _ _ _ _ Hin)).
  use_shape (pointwise_forward_shape ec ch p2 _ B T Hec HT
               (tensor_map_shape krelu _ _ _ _ Sy)).
  eexists. split; [reflexivity|]. apply tensor_map_shape. exact Sy0.
Qed.

Lemma ResidualStack_forward_shape (L S rc dc sc : nat) (init : nat -> @BlockParams K)
    (input : tensor3 K) (skip_size : Z) (B T : nat) :
  1 <= L -> 1 <= S -> 1 <= rc -> 1 <= dc -> 1 <= T ->
  has_shape input B rc T ->
  exists skips sum,
    skip_chain (res_blocks (ResidualStack_init L S rc dc sc init)) input skip_size
    = Some skips /\
    length skips = L * S /\
    ResidualStack_forward (ResidualStack_init L S rc dc sc init) input skip_size
    = Some (SumTensor sum) /\
    has_shape sum B sc T /\
    forall b c t, b < B -> c < sc -> t < T ->
      tensor_at sum b c t = Some (sum_at skips b c t).
Proof.
  intros HL HS Hrc Hdc HT Hin.
  rewrite ResidualStack_forward_chain. cbn [res_blocks ResidualStack_init].
  destruct (skip_chain_shape rc dc sc (stack_res_blocks L S rc dc sc init) input
              skip_size B T (stack_res_blocks_well_built L S rc dc sc init)
              Hrc Hdc HT Hin) as (skips & Eskips & Hlen & Hshapes).
  rewrite stack_res_blocks_length in Hlen.
  destruct (sum_skips_at skips B sc T) as (sum & Esum & Ssum & Hat).
  - intros ->. simpl in Hlen. nia.
  - exact Hshapes.
  - exists skips, sum. rewrite Eskips. cbn [bind]. auto.
Qed.

(** *** Sums of 64-bit integers *)

Lemma int64_wrap_add (a v : Z) :
  int64_wrap (int64_wrap a + v) = int64_wrap (a + v).
Proof.
  unfold int64_wrap. f_equal.
  replace ((a + 2 ^ 63) mod 2 ^ 64 - 2 ^ 63 + v + 2 ^ 63)%Z
    with ((a + 2 ^ 63) mod 2 ^ 64 + v)%Z by lia.
  rewrite Z.add_mod_idemp_l by lia. f_equal. lia.
Qed.

Lemma int64_wrap_small (z : Z) :
  (- 2 ^ 63 <= z < 2 ^ 63)%Z -> int64_wrap z = z.
Proof.
  intro Hz. unfold int64_wrap. rewrite Z.mod_small by lia. lia.
Qed.

Lemma fold_int64_sum (l : list Z) (a : Z) :
  fold_left (fun acc v => int64_wrap (acc + v)) l (int64_wrap a)
  = int64_wrap (a + fold_right Z.add 0%Z l).
Proof.
  revert a. induction l as [|v l IH]; intro a; cbn [fold_left fold_right].
  - f_equal. lia.
  - rewrite int64_wrap_add, IH. f_equal. lia.
Qed.

Lemma sum_concat_repeat (l : list Z) (n : nat) :
  fold_right Z.add 0%Z (concat (repeat l n))
  = (Z.of_nat n * fold_right Z.add 0%Z l)%Z.
Proof.
  induction n as [|n IH]; cbn [repeat concat].
  - reflexivity.
  - rewrite fold_right_app.
    assert (Hshift : forall (l1 : list Z) (z : Z),
               fold_right Z.add z l1 = (fold_right Z.add 0 l1 + z)%Z).
    { induction l1 as [|x l1 IH1]; intro z; cbn [fold_right]; [lia|].
      rewrite IH1. lia. }
    rewrite Hshift, IH. lia.
Qed.

Lemma sum_pow2 (L : nat) :
  fold_right Z.add 0%Z (map (fun i => 2 ^ Z.of_nat i)%Z (seq 0 L)) = (2 ^ Z.of_nat L - 1)%Z.
Proof.
  induction L as [|L IH].
  - reflexivity.
  - rewrite seq_S, map_app, fold_right_app. cbn [map fold_right Nat.add].
    assert (Hshift : forall (l1 : list Z) (z : Z),
               fold_right Z.add z l1 = (fold_right Z.add 0 l1 + z)%Z).
    { induction l1 as [|x l1 IH1]; intro z; cbn [fold_right]; [lia|].
      rewrite IH1. lia. }
    rewrite Hshift, IH.
    rewrite Nat2Z.inj_succ, Z.pow_succ_r by lia. lia.
Qed.

Lemma layers_fit_int64 (L S : nat) :
  L <= 63 ->
  forallb fits_int64
    (concat (repeat (map (fun i => 2 ^ Z.of_nat i)%Z (seq 0 L)) S)) = true.
Proof.
  intro HL. apply forallb_forall. intros z Hz.
  apply in_concat in Hz. destruct Hz as (l & Hl & Hz).
  apply repeat_spec in Hl. subst l.
  apply in_map_iff in Hz. destruct Hz as (i & <- & Hi). apply in_seq in Hi.
  unfold fits_int64. apply andb_true_iff. split.
  - apply Z.leb_le. pose proof (Z.pow_pos_nonneg 2 (Z.of_nat i)). lia.
  - apply Z.ltb_lt. apply Z.pow_lt_mono_r; lia.
Qed.

Lemma calc_receptive_field_wrap (L S : nat) :
  L <= 63 ->
  calc_receptive_field L S
  = Some (int64_wrap (Z.of_nat S * (2 ^ Z.of_nat L - 1))).
Proof.
  intro HL. unfold calc_receptive_field, np_sum.
  rewrite layers_fit_int64 by exact HL.
  change 0%Z with (int64_wrap 0) at 1.
  rewrite fold_int64_sum, sum_concat_repeat, sum_pow2. reflexivity.
Qed.

End Proofs.

(** * The claims about [network.py] *)

Section NetworkClaims.
Import Network.
Context {K : Type} `{Scalar K}.

(** C4: for every dilation d >= 1 and every input of shape (B, C_in, T) with
    T >= 1, [DilatedCausalConv1d.forward] returns a tensor of shape
    (B, C_out, T): padding by d on both sides and cutting d samples off the
    right end keeps the temporal length. *)
Theorem DilatedCausalConv1d_preserves_length (in_ch out_ch : nat) (d : Z)
    (w x : tensor3 K) (B T : nat) :
  (1 <= d)%Z -> 1 <= in_ch -> 1 <= T -> has_shape x B in_ch T ->
  exists y,
    DilatedCausalConv1d_forward (DilatedCausalConv1d_init in_ch out_ch d w) x = Some y /\
    has_shape y B out_ch T.
Proof.
  intros Hd Hin _ Hx.
  apply DilatedCausalConv1d_forward_has_shape; assumption.
Qed.

(** C3: causality.  For every dilation d >= 1 and timestep t, two inputs of
    one shape that agree at all timesteps <= t give, under the same weights,
    outputs that agree at timestep t. *)
Theorem DilatedCausalConv1d_causal (in_ch out_ch : nat) (d : Z)
    (w x x' : tensor3 K) (B T t : nat) :
  (1 <= d)%Z -> 1 <= in_ch -> 1 <= T ->
  has_shape x B in_ch T -> has_shape x' B in_ch T ->
  (forall b c s, s <= t -> tensor_at x b c s = tensor_at x' b c s) ->
  exists y y',
    DilatedCausalConv1d_forward (DilatedCausalConv1d_init in_ch out_ch d w) x = Some y /\
    DilatedCausalConv1d_forward (DilatedCausalConv1d_init in_ch out_ch d w) x' = Some y' /\
    forall b co, tensor_at y b co t = tensor_at y' b co t.
Proof.
  intros Hd Hin _ Hx Hx' Hagree.
  destruct (DilatedCausalConv1d_forward_has_shape in_ch out_ch d w x B T Hd Hin Hx)
    as (y & Ey & Sy).
  destruct (DilatedCausalConv1d_forward_has_shape in_ch out_ch d w x' B T Hd Hin Hx')
    as (y' & Ey' & Sy').
  exists y, y'. split; [exact Ey|]. split; [exact Ey'|].
  intros b co.
  destruct (Nat.lt_ge_cases b B) as [Hb|Hb];
    [destruct (Nat.lt_ge_cases co out_ch) as [Hco|Hco];
     [destruct (Nat.lt_ge_cases t T) as [Ht|Ht]|]|];
    try (rewrite (tensor_at_outside y B out_ch T), (tensor_at_outside y' B out_ch T)
           by (assumption || lia); reflexivity).
  rewrite (DilatedCausalConv1d_forward_at in_ch out_ch d w x y B T b co t)
    by assumption.
  rewrite (DilatedCausalConv1d_forward_at in_ch out_ch d w x' y' B T b co t)
    by assumption.
  f_equal. unfold causal_sample. f_equal. apply map_ext. intro ci.
  rewrite (agree_get x x' B in_ch T b ci t Hx Hx') by (apply Hagree; lia).
  destruct (Nat.ltb_spec t (Z.to_nat d)) as [_|Hge]; [reflexivity|].
  rewrite (agree_get x x' B in_ch T b ci (t - Z.to_nat d) Hx Hx')
    by (apply Hagree; lia).
  reflexivity.
Qed.

(** C5, as the code has it: an input no longer than the padding
    (1 <= T <= d) still gives an output of T samples per channel, none of
    them dropped; every output sample is the kernel's tap 0 on the zero
    padding plus its tap 1 on the input sample of the same timestep. *)
Theorem DilatedCausalConv1d_short_input (in_ch out_ch : nat) (d : Z)
    (w x : tensor3 K) (B T : nat) :
  (1 <= d)%Z -> 1 <= in_ch -> 1 <= T -> (Z.of_nat T <= d)%Z ->
  has_shape x B in_ch T ->
  exists y,
    DilatedCausalConv1d_forward (DilatedCausalConv1d_init in_ch out_ch d w) x = Some y /\
    has_shape y B out_ch T /\
    forall b co t, b < B -> co < out_ch -> t < T ->
      tensor_at y b co t
      = Some (ksum (map (fun ci => kadd (kmul (get w co ci 0) kzero)
                                        (kmul (get w co ci 1) (get x b ci t)))
                        (seq 0 in_ch))).
Proof.
  intros Hd Hin _ HT Hx.
  destruct (DilatedCausalConv1d_forward_has_shape in_ch out_ch d w x B T Hd Hin Hx)
    as (y & Ey & Sy).
  exists y. split; [exact Ey|]. split; [exact Sy|].
  intros b co t Hb Hco Ht.
  rewrite (DilatedCausalConv1d_forward_at in_ch out_ch d w x y B T b co t)
    by assumption.
  unfold causal_sample.
  destruct (Nat.ltb_spec t (Z.to_nat d)) as [_|Hge]; [reflexivity|lia].
Qed.

(** C9: [skip_size] has no effect on [ResidualBlock.forward] nor on
    [ResidualStack.forward]: two calls that differ in it alone return the
    same; the skip path is not cut to [skip_size]. *)
Theorem skip_size_unused (blk : ResidualBlock) (stk : ResidualStack)
    (input : tensor3 K) (s1 s2 : Z) :
  ResidualBlock_forward blk input s1 = ResidualBlock_forward blk input s2 /\
  ResidualStack_forward stk input s1 = ResidualStack_forward stk input s2.
Proof.
  split.
  - (* the body of the block does not read [skip_size] *)
    unfold ResidualBlock_forward. reflexivity.
  - (* so the turns of the loop for [s1] and for [s2] are the same function *)
    unfold ResidualStack_forward.
    replace (stack_step s2) with (stack_step s1) by reflexivity.
    reflexivity.
Qed.

(** C6: [ResidualStack] builds exactly L * S blocks, block i with dilation
    2^(i mod L) (the padding it cuts, and the dilation and padding of its
    two-tap convolution); [forward] feeds the residual output of each block to the
    next one and returns only the sum of the skip outputs: on an input of
    shape (B, residual_channels, T) the result is a tensor of shape
    (B, skip_channels, T) whose every sample is the sum, over the L * S
    blocks in order, of the skip outputs at that index. *)
Theorem ResidualStack_contract (L S rc dc sc : nat) (init : nat -> @BlockParams K)
    (input : tensor3 K) (skip_size : Z) (B T : nat) :
  1 <= L -> 1 <= S -> 1 <= rc -> 1 <= dc -> 1 <= T ->
  has_shape input B rc T ->
  length (res_blocks (ResidualStack_init L S rc dc sc init)) = L * S /\
  (forall i, i < L * S ->
     exists blk,
       nth_error (res_blocks (ResidualStack_init L S rc dc sc init)) i = Some blk /\
       blk = _residual_block rc dc sc (2 ^ Z.of_nat (i mod L))%Z (init i) /\
       padding (dilated_conv blk) = (2 ^ Z.of_nat (i mod L))%Z /\
       Z.of_nat (conv_dilation (conv (dilated_conv blk))) = (2 ^ Z.of_nat (i mod L))%Z /\
       Z.of_nat (conv_padding (conv (dilated_conv blk))) = (2 ^ Z.of_nat (i mod L))%Z /\
       kernel_size (conv (dilated_conv blk)) = 2) /\
  exists skips sum,
    skip_chain (res_blocks (ResidualStack_init L S rc dc sc init)) input skip_size
    = Some skips /\
    length skips = L * S /\
    ResidualStack_forward (ResidualStack_init L S rc dc sc init) input skip_size
    = Some (SumTensor sum) /\
    has_shape sum B sc T /\
    forall b c t, b < B -> c < sc -> t < T ->
      tensor_at sum b c t = Some (sum_at skips b c t).
Proof.
  intros HL HS Hrc Hdc HT Hin. split; [|split].
  - apply stack_res_blocks_length.
  - intros i Hi. cbn [res_blocks ResidualStack_init].
    exists (_residual_block rc dc sc (2 ^ Z.of_nat (i mod L))%Z (init i)).
    split; [apply stack_res_blocks_nth; exact Hi|]. split; [reflexivity|].
    unfold _residual_block, ResidualBlock_init, DilatedCausalConv1d_init.
    cbn [dilated_conv padding conv conv_dilation conv_padding kernel_size].
    pose proof (Z.pow_pos_nonneg 2 (Z.of_nat (i mod L)) ltac:(lia) ltac:(lia)).
    repeat split; lia.
  - apply ResidualStack_forward_shape; assumption.
Qed.

(** C1, as the code has it: for every configuration and every input of
    temporal length T >= 1, [Wavenet.forward] returns an output of temporal
    length exactly T, shape (B, channels, T); the length minus the receptive
    field is only what [calc_output_size] hands down as the unused
    [skip_size]. *)
Theorem Wavenet_forward_keeps_length (L S ch rc dc sc ec : nat) (p : WavenetParams)
    (net : Wavenet) (x : tensor3 K) (B T : nat) :
  Wavenet_init L S ch rc dc sc ec p = Some net ->
  1 <= L -> 1 <= S ->
  1 <= ch -> 1 <= rc -> 1 <= dc -> 1 <= sc -> 1 <= ec ->
  1 <= T -> has_shape x B ch T ->
  exists y, Wavenet_forward net x = Some y /\ has_shape y B ch T.
Proof.
  intros Hnet HL HS Hch Hrc Hdc Hsc Hec HT Hx.
  unfold Wavenet_init in Hnet.
  destruct (calc_receptive_field L S) as [rf|]; [|discriminate].
  cbn [bind] in Hnet. injection Hnet as <-.
  unfold Wavenet_forward. cbn [causal res_stacks post].
  destruct (DilatedCausalConv1d_forward_has_shape ch rc 1 (p_causal p) x B T
              ltac:(lia) Hch Hx) as (y0 & E0 & S0).
  rewrite E0. cbn [bind].
  destruct (ResidualStack_forward_shape L S rc dc sc (p_blocks p) y0
              (calc_output_size
                 {| receptive_field := rf;
                    causal := DilatedCausalConv1d_init ch rc 1 (p_causal p);
                    res_stacks := ResidualStack_init L S rc dc sc (p_blocks p);
                    post := PostProcess_init sc ec ch (p_post1 p) (p_post2 p) |} x)
              B T HL HS Hrc Hdc HT S0)
    as (skips & sum & _ & _ & Esum & Ssum & _).
  rewrite Esum. cbn [bind].
  apply PostProcess_forward_shape; assumption.
Qed.

(** C2, as the code has it: [np.sum] adds the dilations up in 64-bit signed
    integers, so [calc_receptive_field(L, S)] equals S * (2^L - 1) for
    positive L and S as long as that value is below 2^63. *)
Theorem calc_receptive_field_int64 (L S : nat) :
  1 <= L -> 1 <= S ->
  (Z.of_nat S * (2 ^ Z.of_nat L - 1) < 2 ^ 63)%Z ->
  calc_receptive_field L S = Some (Z.of_nat S * (2 ^ Z.of_nat L - 1))%Z.
Proof.
  intros HL HS Hbound.
  assert (HL63 : L <= 63).
  { destruct (le_gt_dec L 63) as [Hle|Hgt]; [exact Hle|exfalso].
    assert (Hpow : (2 ^ 64 <= 2 ^ Z.of_nat L)%Z) by (apply Z.pow_le_mono_r; lia).
    nia. }
  rewrite calc_receptive_field_wrap by exact HL63.
  f_equal. apply int64_wrap_small.
  pose proof (Z.pow_pos_nonneg 2 (Z.of_nat L)). nia.
Qed.

End NetworkClaims.

(** * Lemmas about [spectral_norm] *)

Section SpectralProofs.
Import Model.
Context {K : Type} `{TFScalar K}.

Lemma map_nth_seq (l : list K) :
  map (fun j => nth j l fzero) (seq 0 (length l)) = l.
Proof.
  induction l as [|a l IH]; cbn [length seq map nth].
  - reflexivity.
  - f_equal. rewrite <- seq_shift, map_map. exact IH.
Qed.

Lemma rows_of_length (cols count : nat) (data : list K) :
  length (rows_of cols count data) = count.
Proof.
  revert data. induction count as [|count IH]; intro data; cbn [rows_of length].
  - reflexivity.
  - rewrite IH. reflexivity.
Qed.

Lemma rows_of_cols (cols count : nat) (data : list K) :
  length data = count * cols ->
  Forall (fun row => length row = cols) (rows_of cols count data).
Proof.
  revert data. induction count as [|count IH]; intros data Hlen; cbn [rows_of].
  - constructor.
  - constructor.
    + rewrite length_firstn. lia.
    + apply IH. rewrite length_skipn. lia.
Qed.

Lemma rows_of_concat (cols count : nat) (data : list K) :
  length data = count * cols ->
  concat (rows_of cols count data) = data.
Proof.
  revert data. induction count as [|count IH]; intros data Hlen;
    cbn [rows_of concat].
  - destruct data; [reflexivity|discriminate].
  - rewrite IH by (rewrite length_skipn; lia). apply firstn_skipn.
Qed.

(** Transposing a matrix of [cols] columns twice gives it back. *)
Lemma transpose_transpose (cols : nat) (m : matrix K) :
  Forall (fun row => length row = cols) m ->
  transpose (length m) (transpose cols m) = m.
Proof.
  intro Hm. unfold transpose.
  induction Hm as [|row m Hrow _ IH]; cbn [length seq map].
  - reflexivity.
  - f_equal.
    + rewrite map_map. cbn [nth]. rewrite <- Hrow. apply map_nth_seq.
    + rewrite <- seq_shift, map_map. rewrite <- IH at 2.
      apply map_ext. intro i. rewrite !map_map. reflexivity.
Qed.

Lemma row_times_transpose (x : list K) (m : matrix K) (cols : nat) :
  map (dot x) (transpose cols m) = row_times x m cols.
Proof.
  unfold transpose, row_times. rewrite map_map. reflexivity.
Qed.

Lemma l2_normalize_row (x : list K) : _l2_normalize [x] = [normalize x].
Proof.
  unfold _l2_normalize, normalize, l2_norm. cbn [concat map].
  rewrite app_nil_r. reflexivity.
Qed.

Lemma normalize_length (x : list K) : length (normalize x) = length x.
Proof. unfold normalize. apply length_map. Qed.

Lemma row_times_length (x : list K) (m : matrix K) (cols : nat) :
  length (row_times x m cols) = cols.
Proof. unfold row_times. rewrite length_map, length_seq. reflexivity. Qed.

(** One turn of the loop of [spectral_norm], from the counter 0. *)
Lemma power_loop_once (w : matrix K) (rows cols : nat) (u v0 : matrix K) :
  while_loop (S ITERS) (fun '(i, _, _) => i <? ITERS)
             (power_iteration w rows cols) (0, u, v0)
  = Some (power_iteration w rows cols (0, u, v0)).
Proof. reflexivity. Qed.

(** What [spectral_norm] returns on a well-formed weight tensor. *)
Lemma spectral_norm_value (dims : list nat) (cols : nat) (data u : list K)
    (update_collection : collection_arg) :
  1 <= cols ->
  length data = fold_right Nat.mul 1 dims * cols ->
  spectral_norm {| t_shape := dims ++ [cols]; t_data := data |} u update_collection
  = Some
      {| w_norm :=
           {| t_shape := dims ++ [cols];
              t_data :=
                map (fun a =>
                       fdiv a (sigma_estimate
                                 (rows_of cols (fold_right Nat.mul 1 dims) data) cols u))
                    data |};
         u_after :=
           match update_collection with
           | UpdateNone =>
               power_step_u (rows_of cols (fold_right Nat.mul 1 dims) data) cols
                 (power_step_v (rows_of cols (fold_right Nat.mul 1 dims) data) u)
           | _ => u
           end;
         collected :=
           match update_collection with
           | UpdateKey c =>
               [(c, power_step_u (rows_of cols (fold_right Nat.mul 1 dims) data) cols
                      (power_step_v (rows_of cols (fold_right Nat.mul 1 dims) data) u))]
           | _ => []
           end |}.
Proof.
  intros Hcols Hlen.
  set (rows := fold_right Nat.mul 1 dims) in *.
  set (W := rows_of cols rows data).
  assert (HW : Forall (fun row => length row = cols) W)
    by (apply rows_of_cols; exact Hlen).
  assert (HWlen : length W = rows) by apply rows_of_length.
  unfold spectral_norm. cbn [t_shape t_data].
  rewrite rev_app_distr. cbn [rev app].
  destruct cols as [|cols']; [lia|]. set (cols := S cols') in *.
  rewrite Hlen, Nat.div_mul by (unfold cols; lia). fold W.
  rewrite power_loop_once. unfold power_iteration.
  assert (Ev : _l2_normalize (matmul [u] (transpose cols W) rows) = [power_step_v W u]).
  { unfold matmul. cbn [map]. rewrite <- HWlen, transpose_transpose by exact HW.
    apply l2_normalize_row. }
  rewrite Ev.
  assert (Eu : _l2_normalize (matmul [power_step_v W u] W cols)
               = [power_step_u W cols (power_step_v W u)]).
  { unfold matmul. cbn [map]. rewrite row_times_transpose. apply l2_normalize_row. }
  rewrite Eu.
  assert (Es : nth 0 (nth 0 (matmul (matmul [power_step_v W u] W cols)
                                    (transpose cols [power_step_u W cols (power_step_v W u)])
                                    1) []) fzero
               = sigma_estimate W cols u).
  { assert (Hu' : map (fun j => nth j (power_step_u W cols (power_step_v W u)) fzero)
                      (seq 0 cols)
                  = power_step_u W cols (power_step_v W u)).
    { assert (Hl : length (power_step_u W cols (power_step_v W u)) = cols).
      { unfold power_step_u. rewrite normalize_length. apply row_times_length. }
      rewrite <- Hl at 1. apply map_nth_seq. }
    unfold matmul, sigma_estimate. cbn [map nth].
    rewrite (row_times_transpose (power_step_v W u) W cols).
    unfold transpose. cbn [seq map nth]. rewrite map_map. cbn [nth].
    rewrite Hu'. reflexivity. }
  rewrite Es. cbn [nth].
  assert (Ed : concat (map (map (fun a => fdiv a (sigma_estimate W cols u))) W)
               = map (fun a => fdiv a (sigma_estimate W cols u)) data).
  { rewrite <- concat_map. unfold W. rewrite rows_of_concat by exact Hlen.
    reflexivity. }
  rewrite Ed.
  destruct update_collection; reflexivity.
Qed.

End SpectralProofs.

(** * Lemmas about the static shapes of [Model.py] *)

Section ModelProofs.
Import Model.

Lemma ceil_div_1 (n : nat) : ceil_div n 1 = n.
Proof.
  unfold ceil_div. replace (n + 1 - 1) with n by lia. apply Nat.div_1_r.
Qed.

Lemma ceil_div_2_lt (n : nat) : 1 < n -> ceil_div n 2 < n.
Proof.
  intro Hn. unfold ceil_div. apply Nat.Div0.div_lt_upper_bound. lia.
Qed.

Lemma ceil_div_2_pos (n : nat) : 1 <= n -> 1 <= ceil_div n 2.
Proof.
  intro Hn. unfold ceil_div. apply Nat.div_le_lower_bound; lia.
Qed.

Lemma tf_add_same (a : shape) : tf_add a a = Some a.
Proof.
  unfold tf_add. destruct (list_eq_dec Nat.eq_dec a a) as [_|Hne];
    [reflexivity|congruence].
Qed.

Lemma conv_stride1 (n c h w channels : nat) :
  conv [n; c; h; w] channels 1 1 false = Some [n; channels; h; w].
Proof.
  unfold conv. rewrite !ceil_div_1. reflexivity.
Qed.

Lemma conv_stride2 (n c h w channels : nat) :
  conv [n; c; h; w] channels 2 2 false
  = Some [n; channels; ceil_div h 2; ceil_div w 2].
Proof. reflexivity. Qed.

Lemma upsample_shape (n c h w channels : nat) :
  upsample [n; c; h; w] channels = Some [n; channels; h * 2; w * 2].
Proof.
  unfold upsample, doubled_size.
  cbn [tf_transpose length Nat.eqb andb forallb Nat.ltb Nat.leb map nth bind
       Nat.sub skipn resize_nearest_neighbor].
  rewrite !conv_stride1. cbn [bind]. rewrite conv_stride1. cbn [bind].
  apply tf_add_same.
Qed.

Lemma label_concat_shape (n c h w lc : nat) :
  label_concat [n; c; h; w] [n; lc; 1; 1] = Some [n; c + lc; h; w].
Proof.
  unfold label_concat, dim_m2, dim_m1, tf_tile.
  cbn [length Nat.leb Nat.sub nth_error bind Nat.eqb combine map tf_concat1].
  rewrite !Nat.mul_1_r, !Nat.mul_1_l, !Nat.eqb_refl. reflexivity.
Qed.

Lemma genblock_shape (n c h w lc channels : nat) :
  genblock [n; c; h; w] channels [n; lc; 1; 1] = Some [n; channels; h * 2; w * 2].
Proof.
  unfold genblock. rewrite label_concat_shape. cbn [bind]. apply upsample_shape.
Qed.

Lemma downblock_shape (n c h w channels : nat) :
  downblock [n; c; h; w] channels
  = Some [n; channels; ceil_div h 2; ceil_div w 2].
Proof.
  unfold downblock. cbn [average_pooling2d bind].
  rewrite !conv_stride1. cbn [bind]. rewrite conv_stride1. cbn [bind].
  apply tf_add_same.
Qed.

Lemma downsample_loop_exits (fuel channels n c h w i : nat) :
  1 <= h -> h <= fuel ->
  exists c' w' i',
    downsample_loop fuel channels [n; c; h; w] i = Some ([n; c'; 1; w'], i').
Proof.
  revert c h w i. induction fuel as [|fuel IH]; intros c h w i Hh Hfuel; [lia|].
  cbn [downsample_loop]. unfold dim_m2. cbn [length Nat.leb Nat.sub nth_error bind].
  destruct (Nat.ltb_spec 1 h) as [Hgt|Hle].
  - rewrite downblock_shape. cbn [bind].
    apply IH; [apply ceil_div_2_pos; lia|].
    pose proof (ceil_div_2_lt h Hgt). lia.
  - replace h with 1 by lia. eauto.
Qed.

Lemma encoder_loop_exits (fuel n c h w i : nat) :
  1 <= w -> w <= fuel ->
  exists c' h' i',
    encoder_loop fuel [n; c; h; w] i = Some ([n; c'; h'; 1], i').
Proof.
  revert c h w i. induction fuel as [|fuel IH]; intros c h w i Hw Hfuel; [lia|].
  cbn [encoder_loop]. unfold dim_m1. cbn [length Nat.leb Nat.sub nth_error bind].
  destruct (Nat.ltb_spec 1 w) as [Hgt|Hle].
  - rewrite conv_stride2. cbn [bind].
    apply IH; [apply ceil_div_2_pos; lia|].
    pose proof (ceil_div_2_lt w Hgt). lia.
  - replace w with 1 by lia. eauto.
Qed.

End ModelProofs.

(** * The claims about [Model.py] *)

Section SpectralClaim.
Import Model.
Context {K : Type} `{TFOrder K}.

(** C7: for every weight tensor (read as a matrix W by flattening all but
    the last axis) and persisted vector u, [spectral_norm] performs exactly
    one power-iteration step v = normalize (u W^T), u' = normalize (v W) and
    scales W by 1 / (v W u'^T), that is, divides every weight by v W u'^T,
    where normalize x = x / (L2-norm x + 1e-12); the offset guards the
    normalisation against a division by zero: whenever the norm is a number
    (at least 0), the denominator is at least 1e-12, so neither 0 nor below
    it.  The new u' replaces u when [update_collection] is [None], is
    registered as a later assignment under any other key, and is dropped
    for [NO_OPS].  The vector u has the length of the last axis, as the
    variable is created; the samples and their operations are those of the
    framework, whatever they return (the division by v W u'^T is the
    framework's own, with nothing guarding it). *)
Theorem spectral_norm_power_step (dims : list nat) (cols : nat) (data u : list K)
    (update_collection : collection_arg) :
  1 <= cols ->
  length data = fold_right Nat.mul 1 dims * cols ->
  length u = cols ->
  exists r,
    spectral_norm {| t_shape := dims ++ [cols]; t_data := data |} u update_collection
    = Some r /\
    t_shape (w_norm r) = dims ++ [cols] /\
    t_data (w_norm r)
    = map (fun a => fdiv a (sigma_estimate
                              (rows_of cols (fold_right Nat.mul 1 dims) data) cols u))
          data /\
    u_after r
    = match update_collection with
      | UpdateNone =>
          power_step_u (rows_of cols (fold_right Nat.mul 1 dims) data) cols
            (power_step_v (rows_of cols (fold_right Nat.mul 1 dims) data) u)
      | _ => u
      end /\
    collected r
    = match update_collection with
      | UpdateKey c =>
          [(c, power_step_u (rows_of cols (fold_right Nat.mul 1 dims) data) cols
                 (power_step_v (rows_of cols (fold_right Nat.mul 1 dims) data) u))]
      | _ => []
      end /\
    (forall x : list K,
        normalize x = map (fun a => fdiv a (fadd (l2_norm x) feps)) x) /\
    (forall x : list K,
        fle fzero (l2_norm x) ->
        fle feps (fadd (l2_norm x) feps) /\
        ~ fle (fadd (l2_norm x) feps) fzero /\
        fadd (l2_norm x) feps <> fzero).
Proof.
  intros Hcols Hlen _.
  rewrite (spectral_norm_value dims cols data u update_collection Hcols Hlen).
  eexists. split; [reflexivity|]. cbn [w_norm u_after collected t_shape t_data].
  repeat (split; [reflexivity|]).
  intros x Hnorm.
  pose proof (fle_add_eps (l2_norm x) Hnorm) as Hden.
  split; [exact Hden|]. split.
  - intro Hneg. exact (feps_pos (fle_trans _ _ _ Hden Hneg)).
  - intro Hzero. rewrite Hzero in Hden. exact (feps_pos Hden).
Qed.

End SpectralClaim.

Section ModelClaims.
Import Model.

(** C8: on a base feature map of spatial size (H, W), [generator1],
    [generator2] and [generator3] applied in sequence give outputs of spatial
    sizes (2H, 2W), (4H, 4W), (8H, 8W): the [upsample] of each [genblock]
    doubles the size and the convolutions after it, of stride 1 with padding
    SAME, keep it. *)
Theorem generator_pyramid_doubles (n c h w lc : nat) :
  (o1 <- generator1 [n; c; h; w] [n; lc; 1; 1] ;;
   o2 <- generator2 o1 [n; lc; 1; 1] ;;
   o3 <- generator3 o2 [n; lc; 1; 1] ;;
   Some (o1, o2, o3))
  = Some ([n; 64; 2 * h; 2 * w], [n; 32; 4 * h; 4 * w], [n; 16; 8 * h; 8 * w]) /\
  (forall c' h' w' channels,
     upsample [n; c'; h'; w'] channels = Some [n; channels; 2 * h'; 2 * w']) /\
  (forall c' h' w' channels,
     conv [n; c'; h'; w'] channels 1 1 false = Some [n; channels; h'; w']).
Proof.
  split; [|split].
  - unfold generator1, generator2, generator3.
    rewrite genblock_shape. cbn [bind].
    rewrite genblock_shape. cbn [bind].
    rewrite genblock_shape. cbn [bind].
    replace (h * 2 * 2 * 2) with (8 * h) by lia.
    replace (w * 2 * 2 * 2) with (8 * w) by lia.
    replace (h * 2 * 2) with (4 * h) by lia.
    replace (w * 2 * 2) with (4 * w) by lia.
    rewrite (Nat.mul_comm h 2), (Nat.mul_comm w 2). reflexivity.
  - intros c' h' w' channels. rewrite upsample_shape.
    rewrite (Nat.mul_comm h' 2), (Nat.mul_comm w' 2). reflexivity.
  - intros c' h' w' channels. apply conv_stride1.
Qed.

(** C10: the [while] loops of [downsample] and [encoder] terminate on every
    input whose height (for [downsample]) or width (for [encoder]) is a
    positive number: every turn maps that dimension n to ceil(n / 2), which
    is smaller than n while n > 1, and the loop exits with the dimension
    at 1.  Fuel of at least the dimension is enough. *)
Theorem downsample_encoder_loops_terminate (fuel n c h w : nat) :
  1 <= h -> 1 <= w -> h <= fuel -> w <= fuel ->
  (exists c' w', downsample fuel [n; c; h; w] = Some [n; c'; 1; w']) /\
  (exists c' h' i', encoder_loop fuel [n; c; h; w] 0 = Some ([n; c'; h'; 1], i')) /\
  (forall channels,
     downblock [n; c; h; w] channels
     = Some [n; channels; ceil_div h 2; ceil_div w 2]) /\
  (forall channels,
     conv [n; c; h; w] channels 2 2 false
     = Some [n; channels; ceil_div h 2; ceil_div w 2]) /\
  (1 < h -> ceil_div h 2 < h) /\
  (1 < w -> ceil_div w 2 < w).
Proof.
  intros Hh Hw Hfh Hfw. repeat split.
  - unfold downsample. rewrite !conv_stride1. cbn [bind].
    rewrite conv_stride1. cbn [bind]. rewrite tf_add_same. cbn [bind].
    destruct (downsample_loop_exits fuel 16 n 16 h w 1 Hh Hfh) as (c' & w' & i' & E).
    rewrite E. cbn [bind]. eauto.
  - apply encoder_loop_exits; assumption.
  - intro channels. apply downblock_shape.
  - apply ceil_div_2_lt.
  - apply ceil_div_2_lt.
Qed.

End ModelClaims.

(** * The theorems on concrete inputs *)

Section Instances.
Import Network Examples.

Lemma DilatedCausalConv1d_preserves_length_witness :
  exists y,
    DilatedCausalConv1d_forward (DilatedCausalConv1d_init 1 1 2 ex_kernel) ex_wave5
    = Some y /\
    has_shape y 1 1 5.
Proof.
  apply (DilatedCausalConv1d_preserves_length 1 1 2 ex_kernel ex_wave5 1 5);
    [lia|lia|lia|apply has_shape_iff; reflexivity].
Defined.

Lemma DilatedCausalConv1d_causal_witness :
  exists y y',
    DilatedCausalConv1d_forward (DilatedCausalConv1d_init 1 1 2 ex_kernel) ex_wave5
    = Some y /\
    DilatedCausalConv1d_forward (DilatedCausalConv1d_init 1 1 2 ex_kernel) ex_wave5'
    = Some y' /\
    forall b co, tensor_at y b co 2 = tensor_at y' b co 2.
Proof.
  apply (DilatedCausalConv1d_causal 1 1 2 ex_kernel ex_wave5 ex_wave5' 1 5 2);
    [lia|lia|lia|apply has_shape_iff; reflexivity|apply has_shape_iff; reflexivity|].
  intros b c s Hs.
  destruct b as [|b]; [|destruct b; reflexivity].
  destruct c as [|c]; [|destruct c; reflexivity].
  destruct s as [|[|[|s]]]; [reflexivity|reflexivity|reflexivity|lia].
Defined.

Lemma DilatedCausalConv1d_short_input_witness :
  exists y,
    DilatedCausalConv1d_forward (DilatedCausalConv1d_init 1 1 2 ex_kernel) ex_wave1
    = Some y /\
    has_shape y 1 1 1 /\
    forall b co t, b < 1 -> co < 1 -> t < 1 ->
      tensor_at y b co t
      = Some (ksum (map (fun ci => kadd (kmul (get ex_kernel co ci 0) kzero)
                                        (kmul (get ex_kernel co ci 1)
                                              (get ex_wave1 b ci t)))
                        (seq 0 1))).
Proof.
  apply (DilatedCausalConv1d_short_input 1 1 2 ex_kernel ex_wave1 1 1);
    [lia|lia|lia|lia|apply has_shape_iff; reflexivity].
Defined.

(** C5 as stated fails: an input of one sample under a padding of 2 gives an
    output of one sample, here the input sample itself times tap 1. *)
Lemma DilatedCausalConv1d_short_input_nonempty :
  (Z.of_nat (size2 ex_wave1) <= padding (DilatedCausalConv1d_init 1 1 2 ex_kernel))%Z /\
  DilatedCausalConv1d_forward (DilatedCausalConv1d_init 1 1 2 ex_kernel) ex_wave1
  = Some [[[7%Z]]].
Proof.
  split.
  - simpl. lia.
  - reflexivity.
Qed.

Lemma ResidualStack_contract_witness :
  length (res_blocks (ResidualStack_init 2 2 1 1 1 (fun _ => ex_block))) = 2 * 2 /\
  (forall i, i < 2 * 2 ->
     exists blk,
       nth_error (res_blocks (ResidualStack_init 2 2 1 1 1 (fun _ => ex_block))) i
       = Some blk /\
       blk = _residual_block 1 1 1 (2 ^ Z.of_nat (i mod 2))%Z ex_block /\
       padding (dilated_conv blk) = (2 ^ Z.of_nat (i mod 2))%Z /\
       Z.of_nat (conv_dilation (conv (dilated_conv blk))) = (2 ^ Z.of_nat (i mod 2))%Z /\
       Z.of_nat (conv_padding (conv (dilated_conv blk))) = (2 ^ Z.of_nat (i mod 2))%Z /\
       kernel_size (conv (dilated_conv blk)) = 2) /\
  exists skips sum,
    skip_chain (res_blocks (ResidualStack_init 2 2 1 1 1 (fun _ => ex_block))) ex_wave5 0
    = Some skips /\
    length skips = 2 * 2 /\
    ResidualStack_forward (ResidualStack_init 2 2 1 1 1 (fun _ => ex_block)) ex_wave5 0
    = Some (SumTensor sum) /\
    has_shape sum 1 1 5 /\
    forall b c t, b < 1 -> c < 1 -> t < 5 ->
      tensor_at sum b c t = Some (sum_at skips b c t).
Proof.
  apply (ResidualStack_contract 2 2 1 1 1 (fun _ => ex_block) ex_wave5 0 1 5);
    [lia|lia|lia|lia|lia|apply has_shape_iff; reflexivity].
Defined.

Lemma Wavenet_forward_keeps_length_witness :
  exists net y,
    Wavenet_init 2 1 1 1 1 1 1 ex_params = Some net /\
    Wavenet_forward net ex_wave5 = Some y /\
    has_shape y 1 1 5.
Proof.
  destruct (Wavenet_init 2 1 1 1 1 1 1 ex_params) as [net|] eqn:Enet;
    [|vm_compute in Enet; discriminate].
  destruct (Wavenet_forward_keeps_length 2 1 1 1 1 1 1 ex_params net ex_wave5 1 5 Enet)
    as (y & Ey & Sy);
    [lia|lia|lia|lia|lia|lia|lia|lia|apply has_shape_iff; reflexivity|].
  exists net, y. auto.
Defined.

(** C1 as stated fails: with one layer and one stack the receptive field is
    1, and an input of 2 samples comes back with 2 samples, not 2 - 1. *)
Lemma Wavenet_forward_length_counterexample :
  exists net y,
    Wavenet_init 1 1 1 1 1 1 1 ex_params = Some net /\
    (Z.of_nat (size2 ex_wave2) > receptive_field net)%Z /\
    calc_output_size net ex_wave2 = 1%Z /\
    Wavenet_forward net ex_wave2 = Some y /\
    has_shape y 1 1 2 /\
    ~ has_shape y 1 1 1.
Proof.
  eexists. eexists. split; [reflexivity|].
  split; [reflexivity|]. split; [reflexivity|].
  split; [vm_compute; reflexivity|]. split.
  - apply has_shape_iff. reflexivity.
  - intro Hs. apply has_shape_iff in Hs. vm_compute in Hs. discriminate.
Qed.

Lemma calc_receptive_field_int64_witness :
  calc_receptive_field 3 1 = Some 7%Z.
Proof.
  exact (calc_receptive_field_int64 3 1 ltac:(lia) ltac:(lia) ltac:(reflexivity)).
Defined.

(** C2 as stated fails: 62 layers in 4 stacks add up to 2^64 - 4, which
    [np.sum] returns as -4. *)
Lemma calc_receptive_field_overflow :
  calc_receptive_field 62 4 = Some (-4)%Z /\
  (-4 <> Z.of_nat 4 * (2 ^ Z.of_nat 62 - 1))%Z.
Proof.
  split.
  - vm_compute. reflexivity.
  - vm_compute. discriminate.
Qed.

Lemma spectral_norm_power_step_witness :
  exists r,
    Model.spectral_norm {| Model.t_shape := [2] ++ [2]; Model.t_data := ex_identity |}
                        ex_u Model.UpdateNone
    = Some r /\
    Model.t_data (Model.w_norm r)
    = map (fun a =>
             fdiv a (Model.sigma_estimate
                       (Model.rows_of 2 (fold_right Nat.mul 1 [2]) ex_identity) 2 ex_u))
          ex_identity /\
    Model.u_after r
    = Model.power_step_u
        (Model.rows_of 2 (fold_right Nat.mul 1 [2]) ex_identity) 2
        (Model.power_step_v
           (Model.rows_of 2 (fold_right Nat.mul 1 [2]) ex_identity) ex_u) /\
    ~ fle (fadd (Model.l2_norm ex_u) feps) fzero.
Proof.
  destruct (spectral_norm_power_step [2] 2 ex_identity ex_u Model.UpdateNone)
    as (r & Er & _ & Ed & Eu & _ & _ & Hguard); [lia|reflexivity|reflexivity|].
  exists r. split; [exact Er|]. split; [exact Ed|]. split; [exact Eu|].
  apply (Hguard ex_u). apply sqrt_pos.
Defined.

Lemma downsample_encoder_loops_terminate_witness :
  (exists c' w', Model.downsample 64 [5; 3; 16; 64] = Some [5; c'; 1; w']) /\
  (exists c' h' i', Model.encoder_loop 64 [5; 3; 16; 64] 0 = Some ([5; c'; h'; 1], i')) /\
  (forall channels,
     Model.downblock [5; 3; 16; 64] channels
     = Some [5; channels; Model.ceil_div 16 2; Model.ceil_div 64 2]) /\
  (forall channels,
     Model.conv [5; 3; 16; 64] channels 2 2 false
     = Some [5; channels; Model.ceil_div 16 2; Model.ceil_div 64 2]) /\
  (1 < 16 -> Model.ceil_div 16 2 < 16) /\
  (1 < 64 -> Model.ceil_div 64 2 < 64).
Proof.
  apply (downsample_encoder_loops_terminate 64 5 3 16 64); lia.
Defined.

End Instances.

(** * Further properties of [network.py] *)

Section NetworkWindows.
Import Network.
Context {K : Type} `{Scalar K}.

Lemma agree_on_weaken (P Q : nat -> Prop) (x x' : tensor3 K) :
  (forall s, Q s -> P s) -> agree_on P x x' -> agree_on Q x x'.
Proof.
  intros HQP Hagree b c s Hs. apply Hagree. apply HQP. exact Hs.
Qed.

(** For two tensors of one shape it is enough to compare inside the
    shape. *)
Lemma agree_on_in_range (Q : nat -> Prop) (y y' : tensor3 K) (B C T : nat) :
  has_shape y B C T -> has_shape y' B C T ->
  (forall b c s, b < B -> c < C -> s < T -> Q s ->
                 tensor_at y b c s = tensor_at y' b c s) ->
  agree_on Q y y'.
Proof.
  intros Hy Hy' Hin b c s Hs.
  destruct (Nat.lt_ge_cases b B) as [Hb|Hb];
    [destruct (Nat.lt_ge_cases c C) as [Hc|Hc];
     [destruct (Nat.lt_ge_cases s T) as [Ht|Ht]|]|];
    try (rewrite (tensor_at_outside y B C T), (tensor_at_outside y' B C T)
           by (assumption || lia); reflexivity).
  apply Hin; assumption.
Qed.

Lemma agree_on_get (P : nat -> Prop) (x x' : tensor3 K) (B C T b c s : nat) :
  has_shape x B C T -> has_shape x' B C T ->
  agree_on P x x' -> P s -> get x b c s = get x' b c s.
Proof.
  intros Hx Hx' Hagree Hs.
  apply (agree_get x x' B C T); [exact Hx|exact Hx'|]. apply Hagree. exact Hs.
Qed.

Lemma pointwise_forward_at (cin cout : nat) (p : PointwiseParams) (x y : tensor3 K)
    (B T b co t : nat) :
  1 <= cin -> 1 <= T -> has_shape x B cin T ->
  Conv1d_forward (pointwise_conv cin cout p) x = Some y ->
  b < B -> co < cout -> t < T ->
  tensor_at y b co t = Some (pointwise_sample p cin x b co t).
Proof.
  intros Hc HT Hx Hy Hb Hco Ht.
  rewrite (Conv1d_forward_rows _ x B T) in Hy; [|exact Hx|exact Hc|simpl; lia].
  injection Hy as <-.
  destruct (get_batch x B cin T b Hx Hb) as [HC _].
  unfold tensor_at. rewrite nth_error_map.
  rewrite (nth_error_nth' x [] (n:=b)) by (destruct Hx; lia).
  cbn [option_map bind]. unfold conv_rows.
  cbn [pointwise_conv out_channels conv_padding conv_dilation kernel_size].
  rewrite nth_error_map, nth_error_seq.
  destruct (Nat.ltb_spec co cout) as [_|Hge]; [|lia].
  cbn [option_map bind Nat.add]. rewrite nth_error_map, nth_error_seq.
  destruct (Nat.ltb_spec t (T + 2 * 0 - (1 * (1 - 1) + 1) + 1)) as [_|Hge]; [|lia].
  cbn [option_map Nat.add]. f_equal.
  unfold conv_sample, pointwise_sample.
  cbn [pointwise_conv bias weight in_channels]. f_equal. f_equal.
  apply map_ext_in. intros ci Hci. apply in_seq in Hci.
  unfold taps. cbn [pointwise_conv kernel_size conv_dilation seq map ksum fold_left].
  rewrite (nth_indep (map (pad1 0) (nth b x [])) [] (pad1 0 []))
    by (rewrite length_map; lia).
  rewrite map_nth, nth_pad1.
  replace (t + 0 * 1 - 0) with t by lia.
  reflexivity.
Qed.

(** *** Layer by layer *)

Lemma dilated_agree (in_ch out_ch : nat) (d : Z) (w x x' y y' : tensor3 K)
    (B T : nat) (P : nat -> Prop) :
  (1 <= d)%Z -> 1 <= in_ch ->
  has_shape x B in_ch T -> has_shape x' B in_ch T ->
  DilatedCausalConv1d_forward (DilatedCausalConv1d_init in_ch out_ch d w) x = Some y ->
  DilatedCausalConv1d_forward (DilatedCausalConv1d_init in_ch out_ch d w) x' = Some y' ->
  agree_on P x x' ->
  agree_on (fun s => P s /\ (s < Z.to_nat d \/ P (s - Z.to_nat d))) y y'.
Proof.
  intros Hd Hin Hx Hx' Ey Ey' Hagree.
  destruct (DilatedCausalConv1d_forward_has_shape in_ch out_ch d w x B T Hd Hin Hx)
    as (y0 & Ey0 & Sy).
  destruct (DilatedCausalConv1d_forward_has_shape in_ch out_ch d w x' B T Hd Hin Hx')
    as (y0' & Ey0' & Sy').
  assert (y0 = y) by congruence. assert (y0' = y') by congruence. subst y0 y0'.
  apply (agree_on_in_range _ y y' B out_ch T Sy Sy').
  intros b co s Hb Hco Hs [HP Hprev].
  rewrite (DilatedCausalConv1d_forward_at in_ch out_ch d w x y B T b co s)
    by assumption.
  rewrite (DilatedCausalConv1d_forward_at in_ch out_ch d w x' y' B T b co s)
    by assumption.
  f_equal. unfold causal_sample. f_equal. apply map_ext. intro ci.
  rewrite (agree_on_get P x x' B in_ch T b ci s Hx Hx' Hagree HP).
  destruct (Nat.ltb_spec s (Z.to_nat d)) as [_|Hge]; [reflexivity|].
  destruct Hprev as [Hlt|HP']; [lia|].
  rewrite (agree_on_get P x x' B in_ch T b ci (s - Z.to_nat d) Hx Hx' Hagree HP').
  reflexivity.
Qed.

Lemma pointwise_agree (cin cout : nat) (p : PointwiseParams) (x x' y y' : tensor3 K)
    (B T : nat) (P : nat -> Prop) :
  1 <= cin -> 1 <= T ->
  has_shape x B cin T -> has_shape x' B cin T ->
  Conv1d_forward (pointwise_conv cin cout p) x = Some y ->
  Conv1d_forward (pointwise_conv cin cout p) x' = Some y' ->
  agree_on P x x' -> agree_on P y y'.
Proof.
  intros Hc HT Hx Hx' Ey Ey' Hagree.
  destruct (pointwise_forward_shape cin cout p x B T Hc HT Hx) as (y0 & Ey0 & Sy).
  destruct (pointwise_forward_shape cin cout p x' B T Hc HT Hx') as (y0' & Ey0' & Sy').
  assert (y0 = y) by congruence. assert (y0' = y') by congruence. subst y0 y0'.
  apply (agree_on_in_range _ y y' B cout T Sy Sy').
  intros b co s Hb Hco Hs HP.
  rewrite (pointwise_forward_at cin cout p x y B T b co s) by assumption.
  rewrite (pointwise_forward_at cin cout p x' y' B T b co s) by assumption.
  f_equal. unfold pointwise_sample. do 2 f_equal. apply map_ext. intro ci.
  rewrite (agree_on_get P x x' B cin T b ci s Hx Hx' Hagree HP). reflexivity.
Qed.

Lemma tensor_map_agree (f : K -> K) (x x' : tensor3 K) (P : nat -> Prop) :
  agree_on P x x' -> agree_on P (tensor_map f x) (tensor_map f x').
Proof.
  intros Hagree b c s Hs. rewrite !tensor_map_at, (Hagree b c s Hs). reflexivity.
Qed.

Lemma tensor_map2_agree (f : K -> K -> K) (x1 x2 x1' x2' z z' : tensor3 K)
    (B C T : nat) (P : nat -> Prop) :
  has_shape x1 B C T -> has_shape x2 B C T ->
  has_shape x1' B C T -> has_shape x2' B C T ->
  tensor_map2 f x1 x2 = Some z -> tensor_map2 f x1' x2' = Some z' ->
  agree_on P x1 x1' -> agree_on P x2 x2' -> agree_on P z z'.
Proof.
  intros H1 H2 H1' H2' Ez Ez' Ha1 Ha2.
  destruct (tensor_map2_shape f x1 x2 B C T H1 H2) as (z0 & Ez0 & Sz).
  destruct (tensor_map2_shape f x1' x2' B C T H1' H2') as (z0' & Ez0' & Sz').
  assert (z0 = z) by congruence. assert (z0' = z') by congruence. subst z0 z0'.
  apply (agree_on_in_range _ z z' B C T Sz Sz').
  intros b c s Hb Hc Hs HP.
  rewrite (tensor_map2_at f x1 x2 z b c s (get x1 b c s) (get x2 b c s) Ez)
    by (apply (tensor_at_get _ B C T); assumption).
  rewrite (tensor_map2_at f x1' x2' z' b c s (get x1' b c s) (get x2' b c s) Ez')
    by (apply (tensor_at_get _ B C T); assumption).
  rewrite (agree_on_get P x1 x1' B C T b c s H1 H1' Ha1 HP).
  rewrite (agree_on_get P x2 x2' B C T b c s H2 H2' Ha2 HP).
  reflexivity.
Qed.

(** The intermediate tensors of a residual block on a well-shaped input. *)
Lemma ResidualBlock_forward_steps (rc dc sc : nat) (d : Z) (p : BlockParams)
    (input : tensor3 K) (skip_size : Z) (B T : nat) :
  (1 <= d)%Z -> 1 <= rc -> 1 <= dc -> 1 <= T ->
  has_shape input B rc T ->
  exists y a a' g r output skip,
    DilatedCausalConv1d_forward (DilatedCausalConv1d_init rc rc d (p_dilated p)) input
    = Some y /\ has_shape y B rc T /\
    Conv1d_forward (pointwise_conv rc dc (p_tanh p)) y = Some a /\
    has_shape a B dc T /\
    Conv1d_forward (pointwise_conv rc dc (p_sigmoid p)) y = Some a' /\
    has_shape a' B dc T /\
    tensor_map2 kmul (tensor_map ktanh a) (tensor_map ksigmoid a') = Some g /\
    has_shape g B dc T /\
    Conv1d_forward (pointwise_conv dc rc (p_residual p)) g = Some r /\
    has_shape r B rc T /\
    tensor_map2 kadd r input = Some output /\ has_shape output B rc T /\
    Conv1d_forward (pointwise_conv dc sc (p_skip p)) g = Some skip /\
    has_shape skip B sc T /\
    ResidualBlock_forward (ResidualBlock_init rc dc sc d p) input skip_size
    = Some (output, skip).
Proof.
  intros Hd Hrc Hdc HT Hin.
  destruct (DilatedCausalConv1d_forward_has_shape rc rc d (p_dilated p) input B T
              Hd Hrc Hin) as (y & Ey & Sy).
  destruct (pointwise_forward_shape rc dc (p_tanh p) y B T Hrc HT Sy) as (a & Ea & Sa).
  destruct (pointwise_forward_shape rc dc (p_sigmoid p) y B T Hrc HT Sy)
    as (a' & Ea' & Sa').
  destruct (tensor_map2_shape kmul _ _ B dc T
              (tensor_map_shape ktanh _ _ _ _ Sa)
              (tensor_map_shape ksigmoid _ _ _ _ Sa')) as (g & Eg & Sg).
  destruct (pointwise_forward_shape dc rc (p_residual p) g B T Hdc HT Sg)
    as (r & Er & Sr).
  destruct (tensor_map2_shape kadd r input B rc T Sr Hin) as (o & Eo & So).
  destruct (pointwise_forward_shape dc sc (p_skip p) g B T Hdc HT Sg)
    as (k & Ek & Sk).
  exists y, a, a', g, r, o, k. repeat (split; [assumption|]).
  unfold ResidualBlock_forward, ResidualBlock_init.
  cbn [dilated_conv tanh_conv sigmoid_conv residual_conv skip_conv].
  rewrite Ey. cbn [bind]. rewrite Ea. cbn [bind]. rewrite Ea'. cbn [bind].
  rewrite Eg. cbn [bind]. rewrite Er. cbn [bind].
  rewrite (residual_slice_whole r input B rc T Sr Hin Hrc), Eo. cbn [bind].
  rewrite Ek. reflexivity.
Qed.

Lemma ResidualBlock_agree (rc dc sc : nat) (d : Z) (p : BlockParams)
    (x x' o o' k k' : tensor3 K) (sz sz' : Z) (B T : nat) (P : nat -> Prop) :
  (1 <= d)%Z -> 1 <= rc -> 1 <= dc -> 1 <= T ->
  has_shape x B rc T -> has_shape x' B rc T ->
  ResidualBlock_forward (ResidualBlock_init rc dc sc d p) x sz = Some (o, k) ->
  ResidualBlock_forward (ResidualBlock_init rc dc sc d p) x' sz' = Some (o', k') ->
  agree_on P x x' ->
  agree_on (fun s => P s /\ (s < Z.to_nat d \/ P (s - Z.to_nat d))) o o' /\
  agree_on (fun s => P s /\ (s < Z.to_nat d \/ P (s - Z.to_nat d))) k k'.
Proof.
  intros Hd Hrc Hdc HT Hx Hx' Eb Eb' Hagree.
  destruct (ResidualBlock_forward_steps rc dc sc d p x sz B T Hd Hrc Hdc HT Hx)
    as (y & a & a1 & g & r & o0 & k0 & Ey & Sy & Ea & Sa & Ea1 & Sa1 & Eg & Sg
        & Er & Sr & Eo & So & Ek & Sk & E).
  destruct (ResidualBlock_forward_steps rc dc sc d p x' sz' B T Hd Hrc Hdc HT Hx')
    as (y' & a' & a1' & g' & r' & o0' & k0' & Ey' & Sy' & Ea' & Sa' & Ea1' & Sa1'
        & Eg' & Sg' & Er' & Sr' & Eo' & So' & Ek' & Sk' & E').
  rewrite E in Eb. rewrite E' in Eb'.
  injection Eb as <- <-. injection Eb' as <- <-.
  pose proof (dilated_agree rc rc d (p_dilated p) x x' y y' B T P
                Hd Hrc Hx Hx' Ey Ey' Hagree) as Hy.
  set (Q := fun s => P s /\ (s < Z.to_nat d \/ P (s - Z.to_nat d))) in *.
  pose proof (pointwise_agree rc dc (p_tanh p) y y' a a' B T Q
                Hrc HT Sy Sy' Ea Ea' Hy) as Ha.
  pose proof (pointwise_agree rc dc (p_sigmoid p) y y' a1 a1' B T Q
                Hrc HT Sy Sy' Ea1 Ea1' Hy) as Ha1.
  pose proof (tensor_map2_agree kmul _ _ _ _ g g' B dc T Q
                (tensor_map_shape ktanh _ _ _ _ Sa)
                (tensor_map_shape ksigmoid _ _ _ _ Sa1)
                (tensor_map_shape ktanh _ _ _ _ Sa')
                (tensor_map_shape ksigmoid _ _ _ _ Sa1')
                Eg Eg'
                (tensor_map_agree ktanh _ _ Q Ha)
                (tensor_map_agree ksigmoid _ _ Q Ha1)) as Hg.
  pose proof (pointwise_agree dc rc (p_residual p) g g' r r' B T Q
                Hdc HT Sg Sg' Er Er' Hg) as Hr.
  split.
  - apply (tensor_map2_agree kadd r x r' x' o0 o0' B rc T Q Sr Hx Sr' Hx' Eo Eo' Hr).
    apply (agree_on_weaken P Q); [|exact Hagree]. intros s [HP _]. exact HP.
  - apply (pointwise_agree dc sc (p_skip p) g g' k0 k0' B T Q
             Hdc HT Sg Sg' Ek Ek' Hg).
Qed.

(** *** Through the stack *)

Lemma total_dilation_nonneg (rc dc sc : nat) (blocks : list (@ResidualBlock K)) :
  Forall (well_built rc dc sc) blocks -> (0 <= total_dilation blocks)%Z.
Proof.
  unfold total_dilation.
  induction 1 as [|blk rest (d & p & Hd & ->) _ IH]; cbn [map fold_right].
  - lia.
  - change (dilation_of (_residual_block rc dc sc d p)) with d. lia.
Qed.

Lemma skip_chain_agree (rc dc sc : nat) (blocks : list (@ResidualBlock K)) (B T hi : nat) :
  Forall (well_built rc dc sc) blocks ->
  1 <= rc -> 1 <= dc -> 1 <= T ->
  forall (lo : Z) (x x' : tensor3 K) (skips skips' : list (tensor3 K)) (sz sz' : Z),
    has_shape x B rc T -> has_shape x' B rc T ->
    agree_on (window lo hi) x x' ->
    skip_chain blocks x sz = Some skips ->
    skip_chain blocks x' sz' = Some skips' ->
    Forall2 (fun k k' =>
               has_shape k B sc T /\ has_shape k' B sc T /\
               agree_on (window (lo + total_dilation blocks) hi) k k')
            skips skips'.
Proof.
  intros Hblocks Hrc Hdc HT.
  induction Hblocks as [|blk rest (d & p & Hd & ->) Hrest IH];
    intros lo x x' skips skips' sz sz' Hx Hx' Hagree Es Es'.
  - cbn [skip_chain] in Es, Es'. injection Es as <-. injection Es' as <-.
    constructor.
  - unfold _residual_block in Es, Es'. cbn [skip_chain] in Es, Es'.
    destruct (ResidualBlock_forward_steps rc dc sc d p x sz B T Hd Hrc Hdc HT Hx)
      as (y & a & a1 & g & r & o & k & _ & _ & _ & _ & _ & _ & _ & _
          & _ & _ & _ & So & _ & Sk & E).
    destruct (ResidualBlock_forward_steps rc dc sc d p x' sz' B T Hd Hrc Hdc HT Hx')
      as (y' & a' & a1' & g' & r' & o' & k' & _ & _ & _ & _ & _ & _ & _ & _
          & _ & _ & _ & So' & _ & Sk' & E').
    destruct (ResidualBlock_agree rc dc sc d p x x' o o' k k' sz sz' B T
                (window lo hi) Hd Hrc Hdc HT Hx Hx' E E' Hagree) as [Ho Hk].
    rewrite E in Es. rewrite E' in Es'. cbn [bind] in Es, Es'.
    destruct (skip_chain rest o sz) as [rs|] eqn:Ers; [|discriminate].
    destruct (skip_chain rest o' sz') as [rs'|] eqn:Ers'; [|discriminate].
    cbn [bind] in Es, Es'. injection Es as <-. injection Es' as <-.
    pose proof (total_dilation_nonneg rc dc sc rest Hrest) as Hnn.
    assert (Htot : total_dilation (_residual_block rc dc sc d p :: rest)
                   = (d + total_dilation rest)%Z) by reflexivity.
    assert (Hsub : forall s,
               window (lo + d) hi s ->
               window lo hi s /\
               (s < Z.to_nat d \/ window lo hi (s - Z.to_nat d))).
    { unfold window. intros s [Hlo Hhi]. split; [lia|].
      destruct (Nat.lt_ge_cases s (Z.to_nat d)) as [Hlt|Hge]; [left; exact Hlt|].
      right. lia. }
    constructor.
    + split; [exact Sk|]. split; [exact Sk'|].
      eapply agree_on_weaken; [|exact Hk].
      intros s Hs. apply Hsub. unfold window in *. rewrite Htot in Hs. lia.
    + assert (Ho' : agree_on (window (lo + d) hi) o o')
        by (eapply agree_on_weaken; [|exact Ho]; exact Hsub).
      pose proof (IH (lo + d)%Z o o' rs rs' sz sz' So So' Ho' Ers Ers') as Hrec.
      eapply Forall2_impl; [|exact Hrec].
      intros s1 s2 (S1 & S2 & Hag). split; [exact S1|]. split; [exact S2|].
      eapply agree_on_weaken; [|exact Hag].
      intros s Hs. unfold window in *. rewrite Htot in Hs. lia.
Qed.

Lemma sum_at_agree (skips skips' : list (tensor3 K)) (B C T b c t : nat)
    (P : nat -> Prop) :
  Forall2 (fun k k' => has_shape k B C T /\ has_shape k' B C T /\ agree_on P k k')
          skips skips' ->
  P t -> sum_at skips b c t = sum_at skips' b c t.
Proof.
  intros Hall HP.
  assert (Hmap : forall l l',
             Forall2 (fun k k' => has_shape k B C T /\ has_shape k' B C T /\
                                  agree_on P k k') l l' ->
             map (fun s => get s b c t) l = map (fun s => get s b c t) l').
  { induction 1 as [|k k' l l' (Sk & Sk' & Hag) _ IHl]; cbn [map].
    - reflexivity.
    - rewrite IHl, (agree_on_get P k k' B C T b c t Sk Sk' Hag HP). reflexivity. }
  destruct Hall as [|k k' rest rest' (Sk & Sk' & Hag) Hrest]; cbn [sum_at].
  - reflexivity.
  - rewrite (Hmap rest rest' Hrest), (agree_on_get P k k' B C T b c t Sk Sk' Hag HP).
    reflexivity.
Qed.

Lemma total_dilation_stack (L S rc dc sc : nat) (init : nat -> @BlockParams K) :
  total_dilation (stack_res_blocks L S rc dc sc init)
  = (Z.of_nat S * (2 ^ Z.of_nat L - 1))%Z.
Proof.
  unfold total_dilation, stack_res_blocks. rewrite map_map.
  rewrite <- sum_pow2, <- sum_concat_repeat. fold (build_dilations L S).
  f_equal.
  assert (Hgen : forall (l : list Z) (n : nat),
             map (fun x : nat * Z =>
                    dilation_of (let '(i, dilation) := x in
                                 _residual_block rc dc sc dilation (init i)))
                 (combine (seq n (length l)) l) = l).
  { induction l as [|z l IHl]; intro n; cbn [length seq combine map].
    - reflexivity.
    - rewrite IHl. reflexivity. }
  apply Hgen.
Qed.

Lemma ResidualStack_agree (L S rc dc sc : nat) (init : nat -> @BlockParams K)
    (x x' : tensor3 K) (sz sz' : Z) (B T hi : nat) (lo : Z) :
  1 <= L -> 1 <= S -> 1 <= rc -> 1 <= dc -> 1 <= T ->
  has_shape x B rc T -> has_shape x' B rc T ->
  agree_on (window lo hi) x x' ->
  exists sum sum',
    ResidualStack_forward (ResidualStack_init L S rc dc sc init) x sz
    = Some (SumTensor sum) /\
    ResidualStack_forward (ResidualStack_init L S rc dc sc init) x' sz'
    = Some (SumTensor sum') /\
    has_shape sum B sc T /\ has_shape sum' B sc T /\
    agree_on (window (lo + Z.of_nat S * (2 ^ Z.of_nat L - 1)) hi) sum sum'.
Proof.
  intros HL HS Hrc Hdc HT Hx Hx' Hagree.
  destruct (ResidualStack_forward_shape L S rc dc sc init x sz B T
              HL HS Hrc Hdc HT Hx) as (skips & sum & Es & _ & Esum & Ssum & Hat).
  destruct (ResidualStack_forward_shape L S rc dc sc init x' sz' B T
              HL HS Hrc Hdc HT Hx') as (skips' & sum' & Es' & _ & Esum' & Ssum' & Hat').
  exists sum, sum'. repeat (split; [assumption|]).
  cbn [res_blocks ResidualStack_init] in Es, Es'.
  pose proof (skip_chain_agree rc dc sc (stack_res_blocks L S rc dc sc init) B T hi
                (stack_res_blocks_well_built L S rc dc sc init) Hrc Hdc HT
                lo x x' skips skips' sz sz' Hx Hx' Hagree Es Es') as Hall.
  rewrite total_dilation_stack in Hall.
  apply (agree_on_in_range _ sum sum' B sc T Ssum Ssum').
  intros b c s Hb Hc Hs Hw.
  rewrite (Hat b c s Hb Hc Hs), (Hat' b c s Hb Hc Hs). f_equal.
  apply (sum_at_agree skips skips' B sc T b c s _ Hall Hw).
Qed.

Lemma PostProcess_agree (sc ec ch : nat) (p1 p2 : PointwiseParams)
    (x x' : tensor3 K) (B T : nat) (P : nat -> Prop) :
  1 <= sc -> 1 <= ec -> 1 <= T ->
  has_shape x B sc T -> has_shape x' B sc T ->
  agree_on P x x' ->
  exists y y',
    PostProcess_forward (PostProcess_init sc ec ch p1 p2) x = Some y /\
    PostProcess_forward (PostProcess_init sc ec ch p1 p2) x' = Some y' /\
    has_shape y B ch T /\ has_shape y' B ch T /\
    agree_on P y y'.
Proof.
  intros Hsc Hec HT Hx Hx' Hagree.
  unfold PostProcess_forward, PostProcess_init. cbn [conv1 conv2].
  destruct (pointwise_forward_shape sc ec p1 _ B T Hsc HT
              (tensor_map_shape krelu _ _ _ _ Hx)) as (a & Ea & Sa).
  destruct (pointwise_forward_shape sc ec p1 _ B T Hsc HT
              (tensor_map_shape krelu _ _ _ _ Hx')) as (a' & Ea' & Sa').
  destruct (pointwise_forward_shape ec ch p2 _ B T Hec HT
              (tensor_map_shape krelu _ _ _ _ Sa)) as (c & Ec & Sc).
  destruct (pointwise_forward_shape ec ch p2 _ B T Hec HT
              (tensor_map_shape krelu _ _ _ _ Sa')) as (c' & Ec' & Sc').
  rewrite Ea, Ea'. cbn [bind]. rewrite Ec, Ec'. cbn [bind].
  eexists. eexists. split; [reflexivity|]. split; [reflexivity|].
  split; [apply tensor_map_shape; exact Sc|].
  split; [apply tensor_map_shape; exact Sc'|].
  apply tensor_map_agree.
  apply (pointwise_agree ec ch p2 _ _ c c' B T P Hec HT
           (tensor_map_shape krelu _ _ _ _ Sa) (tensor_map_shape krelu _ _ _ _ Sa')
           Ec Ec').
  apply tensor_map_agree.
  apply (pointwise_agree sc ec p1 _ _ a a' B T P Hsc HT
           (tensor_map_shape krelu _ _ _ _ Hx) (tensor_map_shape krelu _ _ _ _ Hx')
           Ea Ea').
  apply tensor_map_agree. exact Hagree.
Qed.

(** The whole network: samples from [lo] to [hi] of the input decide the
    samples from [lo + 1 + S * (2^L - 1)] to [hi] of the output. *)
Lemma Wavenet_agree (L S ch rc dc sc ec : nat) (p : WavenetParams)
    (net : Wavenet) (x x' : tensor3 K) (B T hi : nat) (lo : Z) :
  Wavenet_init L S ch rc dc sc ec p = Some net ->
  1 <= L -> 1 <= S ->
  1 <= ch -> 1 <= rc -> 1 <= dc -> 1 <= sc -> 1 <= ec -> 1 <= T ->
  has_shape x B ch T -> has_shape x' B ch T ->
  agree_on (window lo hi) x x' ->
  exists y y',
    Wavenet_forward net x = Some y /\ Wavenet_forward net x' = Some y' /\
    has_shape y B ch T /\ has_shape y' B ch T /\
    agree_on (window (lo + 1 + Z.of_nat S * (2 ^ Z.of_nat L - 1)) hi) y y'.
Proof.
  intros Hnet HL HS Hch Hrc Hdc Hsc Hec HT Hx Hx' Hagree.
  unfold Wavenet_init in Hnet.
  destruct (calc_receptive_field L S) as [rf|]; [|discriminate].
  cbn [bind] in Hnet. injection Hnet as <-.
  unfold Wavenet_forward. cbn [causal res_stacks post].
  destruct (DilatedCausalConv1d_forward_has_shape ch rc 1 (p_causal p) x B T
              ltac:(lia) Hch Hx) as (y0 & E0 & S0).
  destruct (DilatedCausalConv1d_forward_has_shape ch rc 1 (p_causal p) x' B T
              ltac:(lia) Hch Hx') as (y0' & E0' & S0').
  pose proof (dilated_agree ch rc 1 (p_causal p) x x' y0 y0' B T (window lo hi)
                ltac:(lia) Hch Hx Hx' E0 E0' Hagree) as H0.
  assert (H0w : agree_on (window (lo + 1) hi) y0 y0').
  { eapply agree_on_weaken; [|exact H0]. unfold window. intros s [Hlo Hhi].
    split; [lia|]. destruct s as [|s]; [left; simpl; lia|right; simpl; lia]. }
  rewrite E0, E0'. cbn [bind].
  match goal with
  | |- context [ResidualStack_forward _ y0 ?a] => set (sz := a)
  end.
  match goal with
  | |- context [ResidualStack_forward _ y0' ?a] => set (sz' := a)
  end.
  destruct (ResidualStack_agree L S rc dc sc (p_blocks p) y0 y0' sz sz' B T hi
              (lo + 1)%Z HL HS Hrc Hdc HT S0 S0' H0w)
    as (sum & sum' & Es & Es' & Ss & Ss' & Hsum).
  rewrite Es, Es'. cbn [bind].
  apply PostProcess_agree; assumption.
Qed.

(** *** Refused inputs and the stack without blocks *)

Lemma Conv1d_forward_channel_mismatch (c : Conv1d) (x : tensor3 K) (B C T : nat) :
  has_shape x B C T -> 1 <= B -> C <> in_channels c ->
  Conv1d_forward c x = None.
Proof.
  intros [HB Hx] HB1 HC.
  destruct x as [|xb rest]; [simpl in HB; lia|].
  inversion Hx as [|? ? [Hlen _] _]; subst.
  unfold Conv1d_forward. cbn [mapM].
  assert (E : conv1d_batch c xb = None).
  { unfold conv1d_batch. destruct xb as [|r0 xb']; [reflexivity|].
    destruct (Nat.eqb_spec (length (r0 :: xb')) (in_channels c)) as [Heq|_];
      [congruence|reflexivity]. }
  rewrite E. reflexivity.
Qed.

Lemma build_dilations_empty (L S : nat) :
  L = 0 \/ S = 0 -> build_dilations L S = [].
Proof.
  unfold build_dilations. intros [-> | ->].
  - cbn [seq map]. induction S as [|S IH]; cbn [repeat concat app]; auto.
  - reflexivity.
Qed.

Lemma calc_receptive_field_exact (L S : nat) :
  1 <= S -> (Z.of_nat S * (2 ^ Z.of_nat L - 1) < 2 ^ 63)%Z ->
  calc_receptive_field L S = Some (Z.of_nat S * (2 ^ Z.of_nat L - 1))%Z.
Proof.
  intros HS Hbound.
  assert (HL63 : L <= 63).
  { destruct (le_gt_dec L 63) as [Hle|Hgt]; [exact Hle|exfalso].
    assert (Hpow : (2 ^ 64 <= 2 ^ Z.of_nat L)%Z) by (apply Z.pow_le_mono_r; lia).
    nia. }
  rewrite calc_receptive_field_wrap by exact HL63.
  f_equal. apply int64_wrap_small.
  pose proof (Z.pow_pos_nonneg 2 (Z.of_nat L)). nia.
Qed.

End NetworkWindows.

Section NetworkExtras.
Import Network.
Context {K : Type} `{Scalar K}.

(** X1: every output sample of [DilatedCausalConv1d.forward] is, summed over
    the input channels, tap 0 of the kernel on the input [dilation] steps
    earlier (on zero before the start of the signal) plus tap 1 on the input
    of the same timestep. *)
Theorem DilatedCausalConv1d_sample_formula (in_ch out_ch : nat) (d : Z)
    (w x : tensor3 K) (B T : nat) :
  (1 <= d)%Z -> 1 <= in_ch -> 1 <= T -> has_shape x B in_ch T ->
  exists y,
    DilatedCausalConv1d_forward (DilatedCausalConv1d_init in_ch out_ch d w) x = Some y /\
    forall b co t, b < B -> co < out_ch -> t < T ->
      tensor_at y b co t
      = Some (ksum (map (fun ci =>
                           kadd (kmul (get w co ci 0)
                                      (if t <? Z.to_nat d then kzero
                                       else get x b ci (t - Z.to_nat d)))
                                (kmul (get w co ci 1) (get x b ci t)))
                        (seq 0 in_ch))).
Proof.
  intros Hd Hin _ Hx.
  destruct (DilatedCausalConv1d_forward_has_shape in_ch out_ch d w x B T Hd Hin Hx)
    as (y & Ey & _).
  exists y. split; [exact Ey|]. intros b co t Hb Hco Ht.
  apply (DilatedCausalConv1d_forward_at in_ch out_ch d w x y B T); assumption.
Qed.

(** X2: on an input of shape (B, residual_channels, T), T >= 1,
    [ResidualBlock.forward] returns a residual output of the input's shape
    and a skip output of shape (B, skip_channels, T), whatever [skip_size]
    is. *)
Theorem ResidualBlock_forward_shapes (rc dc sc : nat) (d : Z) (p : BlockParams)
    (input : tensor3 K) (skip_size : Z) (B T : nat) :
  (1 <= d)%Z -> 1 <= rc -> 1 <= dc -> 1 <= T ->
  has_shape input B rc T ->
  exists output skip,
    ResidualBlock_forward (ResidualBlock_init rc dc sc d p) input skip_size
    = Some (output, skip) /\
    has_shape output B rc T /\ has_shape skip B sc T.
Proof.
  intros Hd Hrc Hdc HT Hin.
  destruct (ResidualBlock_forward_steps rc dc sc d p input skip_size B T
              Hd Hrc Hdc HT Hin)
    as (y & a & a1 & g & r & o & k & _ & _ & _ & _ & _ & _ & _ & _
        & _ & _ & _ & So & _ & Sk & E).
  exists o, k. auto.
Qed.

(** X3: the two outputs of a residual block at timestep t read the input at
    t and at t - dilation only: two inputs of one shape that agree at these
    two timesteps (at t alone when t < dilation) give residual and skip
    outputs that agree at t. *)
Theorem ResidualBlock_reads_two_timesteps (rc dc sc : nat) (d : Z) (p : BlockParams)
    (x x' : tensor3 K) (sz sz' : Z) (B T t : nat) :
  (1 <= d)%Z -> 1 <= rc -> 1 <= dc -> 1 <= T ->
  has_shape x B rc T -> has_shape x' B rc T ->
  agree_on (fun s => s = t \/ (Z.to_nat d <= t /\ s = t - Z.to_nat d)) x x' ->
  exists o k o' k',
    ResidualBlock_forward (ResidualBlock_init rc dc sc d p) x sz = Some (o, k) /\
    ResidualBlock_forward (ResidualBlock_init rc dc sc d p) x' sz' = Some (o', k') /\
    forall b c,
      tensor_at o b c t = tensor_at o' b c t /\
      tensor_at k b c t = tensor_at k' b c t.
Proof.
  intros Hd Hrc Hdc HT Hx Hx' Hagree.
  destruct (ResidualBlock_forward_steps rc dc sc d p x sz B T Hd Hrc Hdc HT Hx)
    as (y & a & a1 & g & r & o & k & _ & _ & _ & _ & _ & _ & _ & _
        & _ & _ & _ & _ & _ & _ & E).
  destruct (ResidualBlock_forward_steps rc dc sc d p x' sz' B T Hd Hrc Hdc HT Hx')
    as (y' & a' & a1' & g' & r' & o' & k' & _ & _ & _ & _ & _ & _ & _ & _
        & _ & _ & _ & _ & _ & _ & E').
  exists o, k, o', k'. split; [exact E|]. split; [exact E'|].
  destruct (ResidualBlock_agree rc dc sc d p x x' o o' k k' sz sz' B T _
              Hd Hrc Hdc HT Hx Hx' E E' Hagree) as [Ho Hk].
  assert (Ht : (t = t \/ (Z.to_nat d <= t /\ t = t - Z.to_nat d)) /\
               (t < Z.to_nat d \/
                (t - Z.to_nat d = t \/
                 (Z.to_nat d <= t /\ t - Z.to_nat d = t - Z.to_nat d)))).
  { split; [left; reflexivity|].
    destruct (Nat.lt_ge_cases t (Z.to_nat d)) as [Hlt|Hge]; [left; exact Hlt|].
    right. right. split; [exact Hge|reflexivity]. }
  intros b c. split; [apply Ho|apply Hk]; exact Ht.
Qed.

(** X4: the receptive field is the reach of the network.  When
    S * (2^L - 1) is below 2^63, output sample t of [Wavenet.forward] reads
    the input at the timesteps t - receptive_field - 1, ..., t only: two
    inputs of one shape that agree there give outputs that agree at t. *)
Theorem Wavenet_forward_receptive_window (L S ch rc dc sc ec : nat) (p : WavenetParams)
    (net : Wavenet) (x x' : tensor3 K) (B T t : nat) :
  Wavenet_init L S ch rc dc sc ec p = Some net ->
  1 <= L -> 1 <= S ->
  (Z.of_nat S * (2 ^ Z.of_nat L - 1) < 2 ^ 63)%Z ->
  1 <= ch -> 1 <= rc -> 1 <= dc -> 1 <= sc -> 1 <= ec -> 1 <= T ->
  has_shape x B ch T -> has_shape x' B ch T ->
  agree_on (window (Z.of_nat t - receptive_field net - 1) t) x x' ->
  exists y y',
    Wavenet_forward net x = Some y /\ Wavenet_forward net x' = Some y' /\
    forall b c, tensor_at y b c t = tensor_at y' b c t.
Proof.
  intros Hnet HL HS Hbound Hch Hrc Hdc Hsc Hec HT Hx Hx' Hagree.
  assert (Hrf : receptive_field net = (Z.of_nat S * (2 ^ Z.of_nat L - 1))%Z).
  { unfold Wavenet_init in Hnet.
    rewrite (calc_receptive_field_exact L S HS Hbound) in Hnet.
    cbn [bind] in Hnet. injection Hnet as <-. reflexivity. }
  destruct (Wavenet_agree L S ch rc dc sc ec p net x x' B T t _
              Hnet HL HS Hch Hrc Hdc Hsc Hec HT Hx Hx' Hagree)
    as (y & y' & Ey & Ey' & _ & _ & Hy).
  exists y, y'. split; [exact Ey|]. split; [exact Ey'|].
  intros b c. apply Hy. unfold window. rewrite Hrf. lia.
Qed.

(** X5: [Wavenet.forward] as a whole is causal: two inputs of one shape that
    agree at all timesteps <= t give outputs that agree at timestep t. *)
Theorem Wavenet_forward_causal (L S ch rc dc sc ec : nat) (p : WavenetParams)
    (net : Wavenet) (x x' : tensor3 K) (B T t : nat) :
  Wavenet_init L S ch rc dc sc ec p = Some net ->
  1 <= L -> 1 <= S ->
  1 <= ch -> 1 <= rc -> 1 <= dc -> 1 <= sc -> 1 <= ec -> 1 <= T ->
  has_shape x B ch T -> has_shape x' B ch T ->
  agree_on (fun s => s <= t) x x' ->
  exists y y',
    Wavenet_forward net x = Some y /\ Wavenet_forward net x' = Some y' /\
    forall b c, tensor_at y b c t = tensor_at y' b c t.
Proof.
  intros Hnet HL HS Hch Hrc Hdc Hsc Hec HT Hx Hx' Hagree.
  destruct (Wavenet_agree L S ch rc dc sc ec p net x x' B T t
              (Z.of_nat t - 1 - Z.of_nat S * (2 ^ Z.of_nat L - 1))%Z
              Hnet HL HS Hch Hrc Hdc Hsc Hec HT Hx Hx')
    as (y & y' & Ey & Ey' & _ & _ & Hy).
  - eapply agree_on_weaken; [|exact Hagree]. intros s [_ Hs]. exact Hs.
  - exists y, y'. split; [exact Ey|]. split; [exact Ey'|].
    intros b c. apply Hy. unfold window. lia.
Qed.

(** X6: [Wavenet.forward] fails on a non-empty batch whose channel count is
    not the configured [channels]: the first convolution refuses it. *)
Theorem Wavenet_forward_channel_mismatch (L S ch rc dc sc ec : nat) (p : WavenetParams)
    (net : Wavenet) (x : tensor3 K) (B C T : nat) :
  Wavenet_init L S ch rc dc sc ec p = Some net ->
  has_shape x B C T -> 1 <= B -> C <> ch ->
  Wavenet_forward net x = None.
Proof.
  intros Hnet Hx HB HC.
  unfold Wavenet_init in Hnet.
  destruct (calc_receptive_field L S) as [rf|]; [|discriminate].
  cbn [bind] in Hnet. injection Hnet as <-.
  unfold Wavenet_forward, DilatedCausalConv1d_forward. cbn [causal].
  rewrite (Conv1d_forward_channel_mismatch _ x B C T Hx HB); [reflexivity|].
  exact HC.
Qed.

(** X7: with [layer_size] or [stack_size] equal to 0 the stack has no block:
    [ResidualStack.forward] returns the integer 0 it started from on every
    input, and [Wavenet.forward] fails on every input, since the
    post-processing cannot take that integer. *)
Theorem Wavenet_forward_without_blocks (L S ch rc dc sc ec : nat) (p : WavenetParams)
    (net : Wavenet) (x : tensor3 K) (skip_size : Z) :
  Wavenet_init L S ch rc dc sc ec p = Some net ->
  L = 0 \/ S = 0 ->
  res_blocks (res_stacks net) = [] /\
  ResidualStack_forward (res_stacks net) x skip_size = Some SumInt0 /\
  Wavenet_forward net x = None.
Proof.
  intros Hnet Hzero.
  unfold Wavenet_init in Hnet.
  destruct (calc_receptive_field L S) as [rf|]; [|discriminate].
  cbn [bind] in Hnet. injection Hnet as <-.
  assert (Hnil : stack_res_blocks L S rc dc sc (p_blocks p) = []).
  { unfold stack_res_blocks. rewrite (build_dilations_empty L S Hzero).
    reflexivity. }
  cbn [res_stacks res_blocks ResidualStack_init]. split; [exact Hnil|].
  split.
  - unfold ResidualStack_forward. cbn [res_blocks ResidualStack_init].
    rewrite Hnil. reflexivity.
  - unfold Wavenet_forward. cbn [causal res_stacks post].
    destruct (DilatedCausalConv1d_forward _ x) as [y0|]; cbn [bind];
      [|reflexivity].
    unfold ResidualStack_forward. cbn [res_blocks ResidualStack_init].
    rewrite Hnil. reflexivity.
Qed.

(** X8: [PostProcess.forward] maps a tensor of shape (B, skip_channels, T),
    T >= 1, to one of shape (B, channels, T), and works timestep by
    timestep: two inputs that agree at timestep t give outputs that agree
    at t. *)
Theorem PostProcess_forward_pointwise (sc ec ch : nat) (p1 p2 : PointwiseParams)
    (x x' : tensor3 K) (B T t : nat) :
  1 <= sc -> 1 <= ec -> 1 <= T ->
  has_shape x B sc T -> has_shape x' B sc T ->
  agree_on (fun s => s = t) x x' ->
  exists y y',
    PostProcess_forward (PostProcess_init sc ec ch p1 p2) x = Some y /\
    PostProcess_forward (PostProcess_init sc ec ch p1 p2) x' = Some y' /\
    has_shape y B ch T /\ has_shape y' B ch T /\
    forall b c, tensor_at y b c t = tensor_at y' b c t.
Proof.
  intros Hsc Hec HT Hx Hx' Hagree.
  destruct (PostProcess_agree sc ec ch p1 p2 x x' B T _ Hsc Hec HT Hx Hx' Hagree)
    as (y & y' & Ey & Ey' & Sy & Sy' & Hy).
  exists y, y'. repeat (split; [assumption|]).
  intros b c. apply Hy. reflexivity.
Qed.

(** X9: for a network built with S * (2^L - 1) below 2^63 and an input of
    shape (B, C, T) with B, C >= 1, [calc_output_size] is T - S * (2^L - 1);
    it is negative, and no error, when the input is shorter than the
    receptive field. *)
Theorem calc_output_size_value (L S ch rc dc sc ec : nat) (p : WavenetParams)
    (net : Wavenet) (x : tensor3 K) (B C T : nat) :
  Wavenet_init L S ch rc dc sc ec p = Some net ->
  1 <= S -> (Z.of_nat S * (2 ^ Z.of_nat L - 1) < 2 ^ 63)%Z ->
  has_shape x B C T -> 1 <= B -> 1 <= C ->
  calc_output_size net x = (Z.of_nat T - Z.of_nat S * (2 ^ Z.of_nat L - 1))%Z /\
  ((Z.of_nat T < Z.of_nat S * (2 ^ Z.of_nat L - 1))%Z ->
   (calc_output_size net x < 0)%Z).
Proof.
  intros Hnet HS Hbound Hx HB HC.
  assert (E : calc_output_size net x
              = (Z.of_nat T - Z.of_nat S * (2 ^ Z.of_nat L - 1))%Z).
  { unfold Wavenet_init in Hnet.
    rewrite (calc_receptive_field_exact L S HS Hbound) in Hnet.
    cbn [bind] in Hnet. injection Hnet as <-.
    unfold calc_output_size. cbn [receptive_field].
    rewrite (size2_shape x B C T Hx HB HC). reflexivity. }
  split; [exact E|]. intro Hshort. rewrite E. lia.
Qed.

(** X21: for at most 63 layers [calc_receptive_field] returns the sum
    S * (2^L - 1) of the dilations reduced to a 64-bit signed integer: the
    value always lies between -2^63 and 2^63 - 1 and differs from the sum by
    a multiple of 2^64. *)
Theorem calc_receptive_field_wraps (L S : nat) :
  L <= 63 ->
  exists rf k,
    calc_receptive_field L S = Some rf /\
    (- 2 ^ 63 <= rf < 2 ^ 63)%Z /\
    (rf = Z.of_nat S * (2 ^ Z.of_nat L - 1) - k * 2 ^ 64)%Z.
Proof.
  intro HL. rewrite (calc_receptive_field_wrap L S HL).
  set (v := (Z.of_nat S * (2 ^ Z.of_nat L - 1))%Z).
  exists (int64_wrap v), ((v + 2 ^ 63) / 2 ^ 64)%Z.
  split; [reflexivity|]. unfold int64_wrap.
  pose proof (Z.mod_pos_bound (v + 2 ^ 63) (2 ^ 64) ltac:(lia)) as Hmod.
  pose proof (Z.div_mod (v + 2 ^ 63) (2 ^ 64) ltac:(lia)) as Hdiv.
  split; lia.
Qed.

End NetworkExtras.

(** * Further properties of [Model.py] *)

Section ModelShapes.
Import Model.

Lemma ceil_div_mul (n a b : nat) :
  1 <= a -> 1 <= b -> ceil_div (ceil_div n a) b = ceil_div n (a * b).
Proof.
  intros Ha Hb. unfold ceil_div.
  replace ((n + a - 1) / a + b - 1) with ((n + a - 1) / a + (b - 1)) by lia.
  rewrite <- Nat.div_add by lia. rewrite Nat.Div0.div_div.
  f_equal. nia.
Qed.

Lemma ceil_div_one_iff (h m : nat) :
  1 <= m -> (ceil_div h m = 1 <-> 1 <= h <= m).
Proof.
  intro Hm. unfold ceil_div. split.
  - intro E.
    assert (Hlo : ~ h = 0).
    { intros ->. rewrite Nat.div_small in E by lia. discriminate. }
    destruct (Nat.le_gt_cases h m) as [Hle|Hgt]; [lia|exfalso].
    assert (2 <= (h + m - 1) / m) by (apply Nat.div_le_lower_bound; lia).
    lia.
  - intros [Hlo Hhi]. symmetry. apply (Nat.div_unique _ _ _ (h - 1)); lia.
Qed.

Lemma log2_up_half (h : nat) :
  1 < h -> Nat.log2_up h = S (Nat.log2_up (ceil_div h 2)).
Proof.
  intro Hh.
  assert (Hhalf : 2 * ceil_div h 2 - 1 <= h <= 2 * ceil_div h 2).
  { unfold ceil_div. replace (h + 2 - 1) with (h + 1) by lia.
    pose proof (Nat.div_mod_eq (h + 1) 2) as Hd.
    pose proof (Nat.mod_upper_bound (h + 1) 2). lia. }
  apply Nat.log2_up_unique; [lia|]. cbn [Nat.pred].
  destruct (Nat.eq_dec (ceil_div h 2) 1) as [E1|Hne].
  - rewrite E1 in *. rewrite Nat.log2_up_1. simpl. lia.
  - assert (Hgt : 1 < ceil_div h 2).
    { pose proof (ceil_div_2_pos h). lia. }
    pose proof (Nat.log2_up_spec _ Hgt) as [Hlo Hhi].
    assert (Hk : 0 < Nat.log2_up (ceil_div h 2)) by (apply Nat.log2_up_pos; lia).
    destruct (Nat.log2_up (ceil_div h 2)) as [|k]; [lia|].
    cbn [Nat.pred] in Hlo. rewrite !Nat.pow_succ_r' in *. lia.
Qed.

Lemma downsample_loop_shape (fuel channels n c h w i : nat) :
  1 <= h -> h <= fuel ->
  downsample_loop fuel channels [n; c; h; w] i
  = Some ([n;
           if h =? 1 then c else channels * 2 ^ (i + Nat.log2_up h - 1);
           1;
           ceil_div w (2 ^ Nat.log2_up h)],
          i + Nat.log2_up h).
Proof.
  revert c h w i. induction fuel as [|fuel IH]; intros c h w i Hh Hfuel; [lia|].
  cbn [downsample_loop]. unfold dim_m2. cbn [length Nat.leb Nat.sub nth_error bind].
  destruct (Nat.ltb_spec 1 h) as [Hgt|Hle].
  - rewrite downblock_shape. cbn [bind].
    pose proof (ceil_div_2_lt h Hgt) as Hlt.
    pose proof (ceil_div_2_pos h ltac:(lia)) as Hpos.
    rewrite IH by lia.
    rewrite (log2_up_half h Hgt).
    destruct (Nat.eqb_spec h 1) as [E|_]; [lia|].
    rewrite ceil_div_mul; [|lia|].
    2:{ pose proof (Nat.pow_nonzero 2 (Nat.log2_up (ceil_div h 2))). lia. }
    rewrite <- Nat.pow_succ_r'.
    destruct (Nat.eqb_spec (ceil_div h 2) 1) as [E1|Hne].
    + rewrite E1, Nat.log2_up_1.
      replace (i + 1 - 1) with i by lia.
      replace (i + 1 + 0) with (i + 1) by lia. reflexivity.
    + replace (i + S (Nat.log2_up (ceil_div h 2)) - 1)
        with (i + 1 + Nat.log2_up (ceil_div h 2) - 1) by lia.
      replace (i + S (Nat.log2_up (ceil_div h 2)))
        with (i + 1 + Nat.log2_up (ceil_div h 2)) by lia.
      reflexivity.
  - assert (h = 1) by lia. subst h. rewrite Nat.log2_up_1.
    cbn [Nat.eqb Nat.pow]. rewrite ceil_div_1, Nat.add_0_r. reflexivity.
Qed.

Lemma encoder_loop_shape (fuel n c h w i : nat) :
  1 <= w -> w <= fuel ->
  encoder_loop fuel [n; c; h; w] i
  = Some ([n;
           if w =? 1 then c else 2 ^ ((i + Nat.log2_up w - 1) / 2 + 3);
           ceil_div h (2 ^ Nat.log2_up w);
           1],
          i + Nat.log2_up w).
Proof.
  revert c h w i. induction fuel as [|fuel IH]; intros c h w i Hw Hfuel; [lia|].
  cbn [encoder_loop]. unfold dim_m1. cbn [length Nat.leb Nat.sub nth_error bind].
  destruct (Nat.ltb_spec 1 w) as [Hgt|Hle].
  - rewrite conv_stride2. cbn [bind].
    pose proof (ceil_div_2_lt w Hgt) as Hlt.
    pose proof (ceil_div_2_pos w ltac:(lia)) as Hpos.
    rewrite IH by lia.
    rewrite (log2_up_half w Hgt).
    destruct (Nat.eqb_spec w 1) as [E|_]; [lia|].
    rewrite ceil_div_mul; [|lia|].
    2:{ pose proof (Nat.pow_nonzero 2 (Nat.log2_up (ceil_div w 2))). lia. }
    rewrite <- Nat.pow_succ_r'.
    destruct (Nat.eqb_spec (ceil_div w 2) 1) as [E1|Hne].
    + rewrite E1, Nat.log2_up_1.
      replace (i + 1 - 1) with i by lia.
      replace (i + 1 + 0) with (i + 1) by lia. reflexivity.
    + replace (i + S (Nat.log2_up (ceil_div w 2)) - 1)
        with (i + 1 + Nat.log2_up (ceil_div w 2) - 1) by lia.
      replace (i + S (Nat.log2_up (ceil_div w 2)))
        with (i + 1 + Nat.log2_up (ceil_div w 2)) by lia.
      reflexivity.
  - assert (w = 1) by lia. subst w. rewrite Nat.log2_up_1.
    cbn [Nat.eqb Nat.pow]. rewrite ceil_div_1, Nat.add_0_r. reflexivity.
Qed.

Lemma downsample_shape (fuel n c h w : nat) :
  1 <= h -> h <= fuel ->
  downsample fuel [n; c; h; w]
  = Some [n; 16 * 2 ^ Nat.log2_up h; 1; ceil_div w (2 ^ Nat.log2_up h)].
Proof.
  intros Hh Hfuel. unfold downsample.
  rewrite !conv_stride1. cbn [bind]. rewrite conv_stride1. cbn [bind].
  rewrite tf_add_same. cbn [bind].
  rewrite downsample_loop_shape by assumption. cbn [bind].
  destruct (Nat.eqb_spec h 1) as [->|Hne].
  - rewrite Nat.log2_up_1. reflexivity.
  - replace (1 + Nat.log2_up h - 1) with (Nat.log2_up h) by lia. reflexivity.
Qed.

Lemma conditional_output_shape (n c h w e : nat) :
  conditional_output [n; c; h; w] [n; e] = Some [n; 1].
Proof.
  unfold conditional_output.
  cbn [tf_flatten bind tf_concat1_2d]. rewrite Nat.eqb_refl.
  cbn [bind dense]. apply tf_add_same.
Qed.

Lemma shared_gen_base (n z lc : nat) :
  shared_gen [n; z] [n; lc; 1; 1] = Some [n; 64; 16; 64].
Proof.
  unfold shared_gen, tf_expand_dims_last. cbn [app tf_concat1].
  rewrite !Nat.eqb_refl. cbn [andb bind tf_tile length Nat.eqb combine map].
  cbn [seq fold_left bind].
  rewrite upsample_shape. cbn [bind].
  rewrite upsample_shape. cbn [bind].
  rewrite upsample_shape. cbn [bind].
  rewrite upsample_shape. cbn [bind].
  rewrite conv_stride1. rewrite Nat.mul_1_r. reflexivity.
Qed.

End ModelShapes.

Section ModelExtras.
Import Model.

(** X10: [shared_gen] turns a noise of shape (N, Z) and a label of shape
    (N, Lc, 1, 1) into a base feature map of shape (N, 64, 16, 64), for every
    batch size N, noise length Z and label width Lc. *)
Theorem shared_gen_shape (n z lc : nat) :
  shared_gen [n; z] [n; lc; 1; 1] = Some [n; 64; 16; 64].
Proof.
  unfold shared_gen, tf_expand_dims_last. cbn [app tf_concat1].
  rewrite !Nat.eqb_refl. cbn [andb bind tf_tile length Nat.eqb combine map].
  cbn [seq fold_left bind].
  rewrite upsample_shape. cbn [bind].
  rewrite upsample_shape. cbn [bind].
  rewrite upsample_shape. cbn [bind].
  rewrite upsample_shape. cbn [bind].
  rewrite conv_stride1. rewrite Nat.mul_1_r. reflexivity.
Qed.

(** X11: the generator end to end.  From a noise (N, Z) and a label
    (N, Lc, 1, 1), [shared_gen], then [generator1], [generator2],
    [generator3] in sequence, each followed by [process], give images of
    shapes (N, CHANNEL_NUM, 32, 128), (N, CHANNEL_NUM, 64, 256) and
    (N, CHANNEL_NUM, 128, 512). *)
Theorem generator_images (n z lc CHANNEL_NUM : nat) :
  (base <- shared_gen [n; z] [n; lc; 1; 1] ;;
   gen1 <- generator1 base [n; lc; 1; 1] ;;
   output1 <- process CHANNEL_NUM gen1 ;;
   gen2 <- generator2 gen1 [n; lc; 1; 1] ;;
   output2 <- process CHANNEL_NUM gen2 ;;
   gen3 <- generator3 gen2 [n; lc; 1; 1] ;;
   output3 <- process CHANNEL_NUM gen3 ;;
   Some (output1, output2, output3))
  = Some ([n; CHANNEL_NUM; 32; 128], [n; CHANNEL_NUM; 64; 256],
          [n; CHANNEL_NUM; 128; 512]).
Proof.
  assert (Hproc : forall c h w,
             process CHANNEL_NUM [n; c; h; w] = Some [n; CHANNEL_NUM; h; w]).
  { intros c h w. unfold process. rewrite conv_stride1. reflexivity. }
  rewrite shared_gen_base.
  cbn [bind]. unfold generator1, generator2, generator3.
  rewrite genblock_shape. cbn [bind]. rewrite Hproc. cbn [bind].
  rewrite genblock_shape. cbn [bind]. rewrite Hproc. cbn [bind].
  rewrite genblock_shape. cbn [bind]. rewrite Hproc. cbn [bind].
  reflexivity.
Qed.

(** X12: for an image of height H >= 1 (and fuel of at least H),
    [downsample] runs k = ceil(log2 H) down blocks and returns the shape
    (N, 16 * 2^k, 1, ceil(W / 2^k)). *)
Theorem downsample_result_shape (fuel n c h w : nat) :
  1 <= h -> h <= fuel ->
  downsample fuel [n; c; h; w]
  = Some [n; 16 * 2 ^ Nat.log2_up h; 1; ceil_div w (2 ^ Nat.log2_up h)].
Proof.
  intros Hh Hfuel. unfold downsample.
  rewrite !conv_stride1. cbn [bind]. rewrite conv_stride1. cbn [bind].
  rewrite tf_add_same. cbn [bind].
  rewrite downsample_loop_shape by assumption. cbn [bind].
  destruct (Nat.eqb_spec h 1) as [->|Hne].
  - rewrite Nat.log2_up_1. reflexivity.
  - replace (1 + Nat.log2_up h - 1) with (Nat.log2_up h) by lia. reflexivity.
Qed.

(** X13: each discriminator returns one score per batch entry, shape (N, 1),
    for every image (N, C, H, W) with H >= 1 and every encoding (N, E); with
    an encoding of another batch size the graph construction fails. *)
Theorem discriminator_score_shape (fuel n c h w e n' : nat) :
  1 <= h -> h <= fuel ->
  discriminator1 fuel [n; c; h; w] [n; e] = Some [n; 1] /\
  discriminator2 fuel [n; c; h; w] [n; e] = Some [n; 1] /\
  discriminator3 fuel [n; c; h; w] [n; e] = Some [n; 1] /\
  (n' <> n -> discriminator1 fuel [n; c; h; w] [n'; e] = None).
Proof.
  intros Hh Hfuel.
  unfold discriminator1, discriminator2, discriminator3.
  rewrite downsample_shape by assumption. cbn [bind].
  rewrite conditional_output_shape. repeat split.
  intro Hne. unfold conditional_output. cbn [tf_flatten bind tf_concat1_2d].
  destruct (Nat.eqb_spec n n') as [E|_]; [congruence|reflexivity].
Qed.


(** X15: [encoder] cannot take a batch of one image: for W >= 2 and
    1 <= H <= W, [tf.squeeze] removes the batch dimension together with the
    two spatial ones, and [dense] fails on the rank-1 tensor that is
    left. *)
Theorem encoder_single_image_fails (fuel c h w : nat) :
  2 <= w -> w <= fuel -> 1 <= h -> h <= w ->
  (exists c' i, encoder_loop fuel [1; c; h; w] 0 = Some ([1; c'; 1; 1], i) /\
                tf_squeeze [1; c'; 1; 1] = [c']) /\
  encoder fuel [1; c; h; w] = None.
Proof.
  intros Hw Hfuel Hh Hhw.
  assert (Hpow : 1 <= 2 ^ Nat.log2_up w).
  { pose proof (Nat.pow_nonzero 2 (Nat.log2_up w)). lia. }
  assert (Hwle : w <= 2 ^ Nat.log2_up w) by (apply Nat.log2_up_spec; lia).
  assert (Hbig : 8 <= 2 ^ ((Nat.log2_up w - 1) / 2 + 3)).
  { rewrite Nat.pow_add_r. change (2 ^ 3) with 8.
    pose proof (Nat.pow_nonzero 2 ((Nat.log2_up w - 1) / 2)). lia. }
  assert (E1 : ceil_div h (2 ^ Nat.log2_up w) = 1)
    by (apply ceil_div_one_iff; lia).
  assert (Hsq : tf_squeeze [1; 2 ^ ((Nat.log2_up w - 1) / 2 + 3); 1; 1]
                = [2 ^ ((Nat.log2_up w - 1) / 2 + 3)]).
  { unfold tf_squeeze. cbn [filter Nat.eqb negb].
    destruct (Nat.eqb_spec (2 ^ ((Nat.log2_up w - 1) / 2 + 3)) 1) as [E8|_]; [lia|].
    reflexivity. }
  assert (Eloop : encoder_loop fuel [1; c; h; w] 0
                  = Some ([1; 2 ^ ((Nat.log2_up w - 1) / 2 + 3); 1; 1],
                          Nat.log2_up w)).
  { rewrite encoder_loop_shape by lia.
    destruct (Nat.eqb_spec w 1) as [E|_]; [lia|].
    rewrite E1. reflexivity. }
  split.
  - exists (2 ^ ((Nat.log2_up w - 1) / 2 + 3)), (Nat.log2_up w). auto.
  - unfold encoder. rewrite Eloop. cbn [bind]. rewrite Hsq. reflexivity.
Qed.

(** X16: [label_concat] on an input (N, C, H, W) and a label
    (N', Lc, Lh, Lw) succeeds exactly when the batch sizes are equal and the
    tiled label has the input's spatial size (Lh * H = H and Lw * W = W), and
    then returns (N, C + Lc, H, W). *)
Theorem label_concat_succeeds_iff (n c h w n' lc lh lw : nat) :
  (n = n' /\ lh * h = h /\ lw * w = w ->
   label_concat [n; c; h; w] [n'; lc; lh; lw] = Some [n; c + lc; h; w]) /\
  (~ (n = n' /\ lh * h = h /\ lw * w = w) ->
   label_concat [n; c; h; w] [n'; lc; lh; lw] = None).
Proof.
  assert (E : label_concat [n; c; h; w] [n'; lc; lh; lw]
              = if (n =? n' * 1) && (h =? lh * h) && (w =? lw * w)
                then Some [n; c + lc * 1; h; w] else None) by reflexivity.
  rewrite E, !Nat.mul_1_r. split.
  - intros (-> & Hh & Hw). rewrite Hh, Hw, !Nat.eqb_refl. reflexivity.
  - intro Hnot.
    destruct (Nat.eqb_spec n n') as [En|_]; [|reflexivity].
    destruct (Nat.eqb_spec h (lh * h)) as [Eh|_]; [|reflexivity].
    destruct (Nat.eqb_spec w (lw * w)) as [Ew|_]; [|reflexivity].
    exfalso. apply Hnot. auto.
Qed.

(** X17: resizing undone.  A [downblock] after an [upsample] returns to the
    spatial size before the [upsample], and a [conv] of strides (sh, sw)
    after a transposed [conv] of the same strides returns to the size before
    the transposed one. *)
Theorem upsample_then_downblock (n c h w channels channels' sh sw : nat) :
  1 <= sh -> 1 <= sw ->
  (x <- upsample [n; c; h; w] channels ;; downblock x channels')
  = Some [n; channels'; h; w] /\
  (x <- conv [n; c; h; w] channels sh sw true ;; conv x channels' sh sw false)
  = Some [n; channels'; h; w].
Proof.
  intros Hsh Hsw.
  assert (Hceil : forall m s, 1 <= s -> ceil_div (m * s) s = m).
  { intros m s Hs. unfold ceil_div.
    replace (m * s + s - 1) with (s - 1 + m * s) by lia.
    rewrite Nat.div_add by lia. rewrite Nat.div_small by lia. reflexivity. }
  split.
  - rewrite upsample_shape. cbn [bind]. rewrite downblock_shape.
    rewrite !Hceil by lia. reflexivity.
  - cbn [conv bind]. rewrite !Hceil by lia. reflexivity.
Qed.

End ModelExtras.

(** * Further properties of [spectral_norm] *)

Section SpectralTheorems.
Import Model.
Context {K : Type} `{TFScalar K}.

(** X18: [spectral_norm] keeps the shape of the weight tensor and the number
    of its samples, and the variable [u] keeps its length, the size of the
    last axis, in every update mode (also when the old [u] is only read);
    an assignment registered in a collection has that length too.  This
    holds whatever the values of the samples are. *)
Theorem spectral_norm_keeps_shapes (dims : list nat) (cols : nat) (data u : list K)
    (update_collection : collection_arg) :
  1 <= cols ->
  length data = fold_right Nat.mul 1 dims * cols ->
  length u = cols ->
  exists r,
    spectral_norm {| t_shape := dims ++ [cols]; t_data := data |} u update_collection
    = Some r /\
    t_shape (w_norm r) = dims ++ [cols] /\
    length (t_data (w_norm r)) = length data /\
    length (u_after r) = cols /\
    Forall (fun cu => length (snd cu) = cols) (collected r).
Proof.
  intros Hcols Hlen Hu.
  rewrite (spectral_norm_value dims cols data u update_collection Hcols Hlen).
  eexists. split; [reflexivity|]. cbn [w_norm u_after collected t_shape t_data].
  assert (Hnew : length (power_step_u
                           (rows_of cols (fold_right Nat.mul 1 dims) data) cols
                           (power_step_v
                              (rows_of cols (fold_right Nat.mul 1 dims) data) u))
                 = cols).
  { unfold power_step_u. rewrite normalize_length. apply row_times_length. }
  split; [reflexivity|]. split; [apply length_map|].
  destruct update_collection as [| |c].
  - split; [exact Hnew|constructor].
  - split; [exact Hu|constructor].
  - split; [exact Hu|]. repeat constructor. exact Hnew.
Qed.

End SpectralTheorems.

(** * [Trainer.run] *)

Section TrainExtras.
Import Train.

Lemma train_steps_app (t1 t2 : list event) :
  train_steps (t1 ++ t2) = train_steps t1 ++ train_steps t2.
Proof. unfold train_steps. apply flat_map_app. Qed.

Lemma train_steps_epoch (data_loader : DataLoader) (epoch : nat) :
  train_steps (run_epoch data_loader epoch)
  = seq (epoch * loader_len data_loader) (loader_batches data_loader).
Proof.
  unfold run_epoch. rewrite train_steps_app. cbn [train_steps flat_map app].
  rewrite app_nil_r.
  generalize (epoch * loader_len data_loader) as base. intro base.
  assert (Hgen : forall n start,
             train_steps
               (flat_map (fun i => [TrainCall (i + base); AddScalar (i + base)])
                         (seq start n))
             = seq (start + base) n).
  { induction n as [|n IH]; intro start; cbn [seq flat_map].
    - reflexivity.
    - rewrite train_steps_app. cbn [train_steps flat_map app].
      fold (train_steps
              (flat_map (fun i => [TrainCall (i + base); AddScalar (i + base)])
                        (seq (S start) n))).
      rewrite IH. reflexivity. }
  apply (Hgen (loader_batches data_loader) 0).
Qed.

(** X20: when one pass over the data loader yields as many batches as its
    [__len__()] says, the steps [Trainer.run] hands to [wavenet.train] are
    0, 1, 2, ... without gap or repetition across the epochs,
    [num_epochs * len] of them. *)
Theorem run_steps_consecutive (num_epochs : nat) (data_loader : DataLoader) :
  loader_batches data_loader = loader_len data_loader ->
  train_steps (run num_epochs data_loader)
  = seq 0 (num_epochs * loader_len data_loader).
Proof.
  intro Hlen. unfold run.
  induction num_epochs as [|e IH].
  - reflexivity.
  - rewrite seq_S, flat_map_app, train_steps_app, IH.
    cbn [flat_map Nat.add]. rewrite app_nil_r, train_steps_epoch, Hlen.
    replace (S e * loader_len data_loader)
      with (e * loader_len data_loader + loader_len data_loader) by lia.
    rewrite seq_app. reflexivity.
Qed.

End TrainExtras.

(** * The further properties on concrete inputs *)

Section ExtraInstances.
Import Network Examples.

Lemma DilatedCausalConv1d_sample_formula_witness :
  exists y,
    DilatedCausalConv1d_forward (DilatedCausalConv1d_init 1 1 2 ex_kernel) ex_wave5
    = Some y /\
    tensor_at y 0 0 3 = Some 24%Z.
Proof.
  destruct (DilatedCausalConv1d_sample_formula 1 1 2 ex_kernel ex_wave5 1 5)
    as (y & Ey & Hy); [lia|lia|lia|apply has_shape_iff; reflexivity|].
  exists y. split; [exact Ey|].
  rewrite (Hy 0 0 3) by lia. reflexivity.
Defined.

Lemma ResidualBlock_forward_shapes_witness :
  exists output skip,
    ResidualBlock_forward (ResidualBlock_init 1 1 1 2 ex_block) ex_wave5 0
    = Some (output, skip) /\
    has_shape output 1 1 5 /\ has_shape skip 1 1 5.
Proof.
  apply (ResidualBlock_forward_shapes 1 1 1 2 ex_block ex_wave5 0 1 5);
    [lia|lia|lia|lia|apply has_shape_iff; reflexivity].
Defined.

Lemma ResidualBlock_reads_two_timesteps_witness :
  exists o k o' k',
    ResidualBlock_forward (ResidualBlock_init 1 1 1 2 ex_block) ex_wave5 0
    = Some (o, k) /\
    ResidualBlock_forward (ResidualBlock_init 1 1 1 2 ex_block) ex_wave5_taps 7
    = Some (o', k') /\
    forall b c,
      tensor_at o b c 3 = tensor_at o' b c 3 /\
      tensor_at k b c 3 = tensor_at k' b c 3.
Proof.
  apply (ResidualBlock_reads_two_timesteps 1 1 1 2 ex_block ex_wave5 ex_wave5_taps
           0 7 1 5 3);
    [lia|lia|lia|lia|apply has_shape_iff; reflexivity
    |apply has_shape_iff; reflexivity|].
  intros b c s Hs.
  assert (Hcases : s = 3 \/ s = 1) by (simpl in Hs; lia).
  destruct b as [|b]; [|destruct b; reflexivity].
  destruct c as [|c]; [|destruct c; reflexivity].
  destruct Hcases as [-> | ->]; reflexivity.
Defined.

Lemma Wavenet_forward_receptive_window_witness :
  exists y y',
    Wavenet_forward ex_net ex_wave5 = Some y /\
    Wavenet_forward ex_net ex_wave5_early = Some y' /\
    forall b c, tensor_at y b c 4 = tensor_at y' b c 4.
Proof.
  apply (Wavenet_forward_receptive_window 1 1 1 1 1 1 1 ex_params ex_net
           ex_wave5 ex_wave5_early 1 5 4);
    [reflexivity|lia|lia|reflexivity|lia|lia|lia|lia|lia|lia
    |apply has_shape_iff; reflexivity|apply has_shape_iff; reflexivity|].
  intros b c s [Hlo Hhi]. simpl in Hlo.
  assert (Hcases : s = 2 \/ s = 3 \/ s = 4) by lia.
  destruct b as [|b]; [|destruct b; reflexivity].
  destruct c as [|c]; [|destruct c; reflexivity].
  destruct Hcases as [-> | [-> | ->]]; reflexivity.
Defined.

Lemma Wavenet_forward_causal_witness :
  exists y y',
    Wavenet_forward ex_net ex_wave5 = Some y /\
    Wavenet_forward ex_net ex_wave5' = Some y' /\
    forall b c, tensor_at y b c 2 = tensor_at y' b c 2.
Proof.
  apply (Wavenet_forward_causal 1 1 1 1 1 1 1 ex_params ex_net
           ex_wave5 ex_wave5' 1 5 2);
    [reflexivity|lia|lia|lia|lia|lia|lia|lia|lia
    |apply has_shape_iff; reflexivity|apply has_shape_iff; reflexivity|].
  intros b c s Hs.
  destruct b as [|b]; [|destruct b; reflexivity].
  destruct c as [|c]; [|destruct c; reflexivity].
  destruct s as [|[|[|s]]]; [reflexivity|reflexivity|reflexivity|lia].
Defined.

Lemma Wavenet_forward_channel_mismatch_witness :
  Wavenet_forward ex_net ex_two_channels = None.
Proof.
  apply (Wavenet_forward_channel_mismatch 1 1 1 1 1 1 1 ex_params ex_net
           ex_two_channels 1 2 2);
    [reflexivity|apply has_shape_iff; reflexivity|lia|lia].
Defined.

Lemma Wavenet_forward_without_blocks_witness :
  res_blocks (res_stacks ex_net_empty) = [] /\
  ResidualStack_forward (res_stacks ex_net_empty) ex_wave5 4 = Some SumInt0 /\
  Wavenet_forward ex_net_empty ex_wave5 = None.
Proof.
  apply (Wavenet_forward_without_blocks 0 1 1 1 1 1 1 ex_params ex_net_empty
           ex_wave5 4); [reflexivity|left; reflexivity].
Defined.

Lemma PostProcess_forward_pointwise_witness :
  exists y y',
    PostProcess_forward (PostProcess_init 1 1 1 ex_pointwise ex_pointwise) ex_wave5
    = Some y /\
    PostProcess_forward (PostProcess_init 1 1 1 ex_pointwise ex_pointwise) ex_wave5_taps
    = Some y' /\
    has_shape y 1 1 5 /\ has_shape y' 1 1 5 /\
    forall b c, tensor_at y b c 3 = tensor_at y' b c 3.
Proof.
  apply (PostProcess_forward_pointwise 1 1 1 ex_pointwise ex_pointwise
           ex_wave5 ex_wave5_taps 1 5 3);
    [lia|lia|lia|apply has_shape_iff; reflexivity|apply has_shape_iff; reflexivity|].
  intros b c s ->.
  destruct b as [|b]; [|destruct b; reflexivity].
  destruct c as [|c]; [|destruct c; reflexivity].
  reflexivity.
Defined.

Lemma calc_output_size_value_witness :
  calc_output_size ex_net ex_wave5 = 4%Z.
Proof.
  destruct (calc_output_size_value 1 1 1 1 1 1 1 ex_params ex_net ex_wave5 1 1 5)
    as [E _];
    [reflexivity|lia|reflexivity|apply has_shape_iff; reflexivity|lia|lia|].
  exact E.
Defined.

Lemma downsample_result_shape_witness :
  Model.downsample 16 [5; 3; 16; 64] = Some [5; 256; 1; 4].
Proof.
  exact (downsample_result_shape 16 5 3 16 64 ltac:(lia) ltac:(lia)).
Defined.

Lemma discriminator_score_shape_witness :
  Model.discriminator1 16 [5; 3; 16; 64] [5; 64] = Some [5; 1] /\
  Model.discriminator2 16 [5; 3; 16; 64] [5; 64] = Some [5; 1] /\
  Model.discriminator3 16 [5; 3; 16; 64] [5; 64] = Some [5; 1] /\
  (4 <> 5 -> Model.discriminator1 16 [5; 3; 16; 64] [4; 64] = None).
Proof.
  apply (discriminator_score_shape 16 5 3 16 64 64 4); lia.
Defined.


Lemma encoder_single_image_fails_witness :
  (exists c' i, Model.encoder_loop 64 [1; 3; 16; 64] 0 = Some ([1; c'; 1; 1], i) /\
                Model.tf_squeeze [1; c'; 1; 1] = [c']) /\
  Model.encoder 64 [1; 3; 16; 64] = None.
Proof.
  apply (encoder_single_image_fails 64 3 16 64); lia.
Defined.

Lemma upsample_then_downblock_witness :
  (x <- Model.upsample [5; 3; 16; 64] 8 ;; Model.downblock x 4)
  = Some [5; 4; 16; 64] /\
  (x <- Model.conv [5; 3; 16; 64] 8 2 2 true ;; Model.conv x 4 2 2 false)
  = Some [5; 4; 16; 64].
Proof.
  apply (upsample_then_downblock 5 3 16 64 8 4 2 2); lia.
Defined.

Lemma spectral_norm_keeps_shapes_witness :
  exists r,
    Model.spectral_norm {| Model.t_shape := [2] ++ [2]; Model.t_data := ex_identity |}
                        ex_u (Model.UpdateKey "spectral_update_ops")
    = Some r /\
    Model.t_shape (Model.w_norm r) = [2] ++ [2] /\
    length (Model.t_data (Model.w_norm r)) = length ex_identity /\
    length (Model.u_after r) = 2 /\
    Forall (fun cu => length (snd cu) = 2) (Model.collected r).
Proof.
  apply (spectral_norm_keeps_shapes [2] 2 ex_identity ex_u
           (Model.UpdateKey "spectral_update_ops"));
    [lia|reflexivity|reflexivity].
Defined.

Lemma run_steps_consecutive_witness :
  Train.train_steps (Train.run 2 ex_loader) = [0; 1; 2; 3; 4; 5].
Proof.
  exact (run_steps_consecutive 2 ex_loader ltac:(reflexivity)).
Defined.

Lemma calc_receptive_field_wraps_witness :
  exists rf k,
    calc_receptive_field 62 4 = Some rf /\
    (- 2 ^ 63 <= rf < 2 ^ 63)%Z /\
    (rf = Z.of_nat 4 * (2 ^ Z.of_nat 62 - 1) - k * 2 ^ 64)%Z.
Proof.
  apply (calc_receptive_field_wraps 62 4). lia.
Defined.

End ExtraInstances.
